(** * Notes storage module: a shallow embedding and its verified properties

    The development follows [storage.js] of the notes front end: a note
    repository with two persistence variants (an IndexedDB object store keyed
    by [id], and a localStorage key holding one JSON array), plus the two pure
    list utilities [filterNotes] and [sortNotesByUpdated].

    Modelling decisions, each read off the source:
    - a note is a record with the five fields the source writes;
    - the asynchronous functions are computations in a small
      reader/state/error monad: the reader is the behaviour of the host
      during the call (clock readings, the random draw, which backend
      requests fail), the state is the persisted data, a rejected promise or
      a thrown exception is [Rejected];
    - the IndexedDB object store is a finite map from the key path [id] to the
      rest of the record, localStorage is a finite map from keys to stored
      texts;
    - JavaScript arrays that are shared by reference (the arguments of
      [filterNotes] and [sortNotesByUpdated]) live in an array heap. *)

From Stdlib Require Import ZArith Ascii String Sorted.
From stdpp Require Import gmap strings list fin_maps pretty relations.

Local Open Scope string_scope.
Local Open Scope Z_scope.

(** ** JavaScript values used by the module *)

(** An argument that the source tests with [!x]: [null], [undefined] or a
    string. *)
Inductive jsarg :=
  | JNull
  | JUndefined
  | JStr (s : string).

(** [!x] for such an argument: the empty string is falsy. *)
Definition falsy (x : jsarg) : bool :=
  match x with
  | JNull | JUndefined => true
  | JStr s => bool_decide (s = "")
  end.

(** [s || d] on strings and [z || d] on (integer) numbers. *)
Definition or_str (s d : string) : string :=
  if bool_decide (s = "") then d else s.

Definition or_num (z d : Z) : Z :=
  if bool_decide (z = 0) then d else z.

(** ** Data model *)

Record Note := mkNote {
  id : string;
  title : string;
  content : string;
  createdAt : Z;
  updatedAt : Z;
}.

Global Instance Note_eq_dec : EqDecision Note.
Proof. solve_decision. Defined.

(** The [updates] argument of [updateNote]: an object holding any subset of
    the fields of a note. *)
Record Updates := mkUpdates {
  u_id : option string;
  u_title : option string;
  u_content : option string;
  u_createdAt : option Z;
  u_updatedAt : option Z;
}.

(** [{ ...existing, ...updates, updatedAt: now }]. The last entry wins, so a
    supplied [updatedAt] is always overwritten. *)
Definition spread_update (existing : Note) (updates : Updates) (now : Z) : Note :=
  {| id := default (id existing) (u_id updates);
     title := default (title existing) (u_title updates);
     content := default (content existing) (u_content updates);
     createdAt := default (createdAt existing) (u_createdAt updates);
     updatedAt := now |}.

(** ** Persisted state *)

(** The object store ['notes'] is created with [keyPath: 'id']: the key of a
    record is its [id] field, so a record is stored as the remaining fields
    under that key. *)
Record NoteRest := mkRest {
  r_title : string;
  r_content : string;
  r_createdAt : Z;
  r_updatedAt : Z;
}.

Definition rest_of (n : Note) : NoteRest :=
  mkRest (title n) (content n) (createdAt n) (updatedAt n).

Definition note_of (k : string) (r : NoteRest) : Note :=
  mkNote k (r_title r) (r_content r) (r_createdAt r) (r_updatedAt r).

(** A text stored in localStorage, classified by what the source can observe
    of it: [!raw], whether [JSON.parse] throws, and [Array.isArray]. The
    elements of a stored array are note records; [JSON.stringify] of an array
    of notes is [RawArray] of it and [JSON.parse] gives the array back. *)
Inductive raw_item :=
  | RawEmpty                       (* the empty string *)
  | RawMalformed                   (* non-empty, JSON.parse throws *)
  | RawNonArray                    (* parses to a value that is not an array *)
  | RawArray (items : list Note).  (* parses to an array of notes *)

Record Store := mkStore {
  idb : gmap string NoteRest;      (* object store 'notes' of 'notes_db' *)
  ls : gmap string raw_item;       (* localStorage *)
}.

(** The persisted data together with the number of [Date.now()] calls made so
    far (the position on the host's clock tape). *)
Record World := mkWorld {
  store : Store;
  ticks : nat;
}.

(** What the host does during one call. *)
Record Host := mkHost {
  now_at : nat → Z;            (* the k-th reading of Date.now() *)
  random_suffix : string;      (* Math.random().toString(36).slice(2, 8) *)
  idb_supported : bool;        (* 'indexedDB' in window *)
  idb_open_ok : bool;          (* indexedDB.open fires onsuccess *)
  idb_getAll_ok : bool;        (* for each request: onsuccess rather than onerror *)
  idb_get_ok : bool;
  idb_put_ok : bool;
  idb_delete_ok : bool;
  ls_get_ok : bool;            (* localStorage.getItem returns rather than throws *)
  ls_set_ok : bool;            (* localStorage.setItem returns rather than throws *)
}.

(** The storage context returned by [initStorage]:
    [{ type: 'indexedDB', db }] or [{ type: 'localStorage', key }]. *)
Inductive Ctx :=
  | IndexedDB
  | LocalStorage (key : string).

(** ** The monad of storage computations *)

Inductive error :=
  | IDBOpenError
  | IDBRequestError
  | StorageError
  | SyntaxError.

Inductive result (A : Type) :=
  | Ok (a : A)
  | Rejected (e : error).
Arguments Ok {A} a.
Arguments Rejected {A} e.

Definition M (A : Type) : Type := Host → World → result A * World.

Definition ret {A} (a : A) : M A := λ _ w, (Ok a, w).

Definition throw {A} (e : error) : M A := λ _ w, (Rejected e, w).

Definition bind {A B} (m : M A) (k : A → M B) : M B :=
  λ h w,
    match m h w with
    | (Ok a, w') => k a h w'
    | (Rejected e, w') => (Rejected e, w')
    end.

(** [try { body } catch (e) { handler }]: what the body did before it threw
    stays done. *)
Definition try_catch {A} (body : M A) (handler : error → M A) : M A :=
  λ h w,
    match body h w with
    | (Ok a, w') => (Ok a, w')
    | (Rejected e, w') => handler e h w'
    end.

Notation "x <- m ;; k" := (bind m (λ x, k))
  (at level 100, m at next level, right associativity).
Notation "m ;; k" := (bind m (λ _, k))
  (at level 100, right associativity).

Definition ask : M Host := λ h w, (Ok h, w).
Definition get_store : M Store := λ _ w, (Ok (store w), w).
Definition put_store (s : Store) : M unit := λ _ w, (Ok tt, mkWorld s (ticks w)).

(** ** Host primitives *)

(** [Date.now()]: the next reading of the clock. *)
Definition Date_now : M Z :=
  λ h w, (Ok (now_at h (ticks w)), mkWorld (store w) (S (ticks w))).

Definition Math_random_suffix : M string :=
  h <- ask ;; ret (random_suffix h).

(** Decimal text of a number inside a template literal. *)
Definition decimal (z : Z) : string := pretty z.

Definition localStorage_getItem (key : string) : M (option raw_item) :=
  h <- ask ;;
  if ls_get_ok h then s <- get_store ;; ret (ls s !! key)
  else throw StorageError.

Definition localStorage_setItem (key : string) (v : raw_item) : M unit :=
  h <- ask ;;
  if ls_set_ok h then s <- get_store ;; put_store (mkStore (idb s) (<[key := v]> (ls s)))
  else throw StorageError.

(** The outcome of [JSON.parse] as far as [Array.isArray] tells. *)
Inductive parsed :=
  | PArray (items : list Note)
  | PNotArray.

Definition JSON_parse (raw : raw_item) : M parsed :=
  match raw with
  | RawEmpty | RawMalformed => throw SyntaxError
  | RawNonArray => ret PNotArray
  | RawArray items => ret (PArray items)
  end.

Definition JSON_stringify (data : list Note) : raw_item := RawArray data.

(** [!raw] on the result of [getItem]. *)
Definition raw_falsy (raw : option raw_item) : bool :=
  match raw with
  | None | Some RawEmpty => true
  | Some _ => false
  end.

(** ** IndexedDB thin wrapper *)

(** The upgrade callback creates the object store ['notes'] when the
    database is new; a new object store has no record, which [idb] of a
    fresh store ([∅]) already says. *)
Definition openDB : M unit :=
  h <- ask ;;
  if idb_open_ok h then ret tt else throw IDBOpenError.

(** The records of the object store, as [getAll] lists them. IndexedDB lists
    them by ascending key; the enumeration order of the finite map stands for
    it, and nothing below depends on the order. *)
Definition idb_records (m : gmap string NoteRest) : list Note :=
  (λ kr, note_of kr.1 kr.2) <$> map_to_list m.

Definition getAllIndexed : M (list Note) :=
  h <- ask ;;
  if idb_getAll_ok h then s <- get_store ;; ret (idb_records (idb s))
  else throw IDBRequestError.

Definition getIndexed (key : string) : M (option Note) :=
  h <- ask ;;
  if idb_get_ok h then s <- get_store ;; ret (note_of key <$> idb s !! key)
  else throw IDBRequestError.

Definition putIndexed (value : Note) : M unit :=
  h <- ask ;;
  if idb_put_ok h
  then s <- get_store ;; put_store (mkStore (<[id value := rest_of value]> (idb s)) (ls s))
  else throw IDBRequestError.

Definition deleteIndexed (key : string) : M unit :=
  h <- ask ;;
  if idb_delete_ok h
  then s <- get_store ;; put_store (mkStore (delete key (idb s)) (ls s))
  else throw IDBRequestError.

(** ** Helpers *)

Definition welcome_content : string :=
  "This is your first note. Start typing to edit. Use Ctrl/Cmd+N to create a new note, Ctrl/Cmd+S to save, and Delete to remove.".

Definition seedSample : M Note :=
  t_id <- Date_now ;;
  t_created <- Date_now ;;
  t_updated <- Date_now ;;
  ret {| id := "note_" ++ decimal t_id;
         title := "Welcome to Notes";
         content := welcome_content;
         createdAt := t_created;
         updatedAt := t_updated |}.

Definition readLS (key : string) : M (list Note) :=
  try_catch
    (raw <- localStorage_getItem key ;;
     if raw_falsy raw then ret []
     else
       p <- JSON_parse (default RawEmpty raw) ;;
       match p with
       | PNotArray => ret []
       | PArray items => ret items
       end)
    (λ _, ret []).

(** The handler only writes to the console. *)
Definition writeLS (key : string) (data : list Note) : M unit :=
  try_catch
    (localStorage_setItem key (JSON_stringify data))
    (λ _, ret tt).

(** ** Array methods *)

(** [Array.prototype.sort] with a comparator: the sort is stable, and for a
    comparator that orders by a key the result is the one of any stable sort;
    here, insertion from the right. *)
Fixpoint sort_insert {A} (cmp : A → A → Z) (x : A) (l : list A) : list A :=
  match l with
  | [] => [x]
  | y :: l' => if bool_decide (cmp x y ≤ 0) then x :: y :: l' else y :: sort_insert cmp x l'
  end.

Fixpoint Array_sort {A} (cmp : A → A → Z) (l : list A) : list A :=
  match l with
  | [] => []
  | x :: l' => sort_insert cmp x (Array_sort cmp l')
  end.

(** [(a, b) => (b.updatedAt || 0) - (a.updatedAt || 0)] *)
Definition by_updated_desc (a b : Note) : Z :=
  or_num (updatedAt b) 0 - or_num (updatedAt a) 0.

(** [items.findIndex(p)]: [None] stands for [-1]. *)
Fixpoint findIndex {A} (p : A → bool) (l : list A) : option nat :=
  match l with
  | [] => None
  | x :: l' => if p x then Some O else S <$> findIndex p l'
  end.

(** [items.find(p)]: [None] stands for [undefined]. *)
Fixpoint find {A} (p : A → bool) (l : list A) : option A :=
  match l with
  | [] => None
  | x :: l' => if p x then Some x else find p l'
  end.

Definition id_is (i : string) (n : Note) : bool := bool_decide (id n = i).

(** ** The public interface *)

Definition notes_key : string := "notes_db__notes".

Definition initStorage : M Ctx :=
  let fallback : M Ctx :=
    try_catch
      (raw <- localStorage_getItem notes_key ;;
       if raw_falsy raw
       then sample <- seedSample ;;
            localStorage_setItem notes_key (JSON_stringify [sample])
       else ret tt)
      (λ _, ret tt) ;;
    ret (LocalStorage notes_key) in
  h <- ask ;;
  if idb_supported h then
    try_catch
      (openDB ;;
       existing <- getAllIndexed ;;
       (if bool_decide (length existing = 0%nat)
        then sample <- seedSample ;; putIndexed sample
        else ret tt) ;;
       ret IndexedDB)
      (λ _, fallback)
  else fallback.

Definition listNotes (ctx : Ctx) : M (list Note) :=
  match ctx with
  | IndexedDB =>
      items <- getAllIndexed ;;
      ret (Array_sort by_updated_desc items)
  | LocalStorage key =>
      items <- readLS key ;;
      ret (Array_sort by_updated_desc items)
  end.

(** The string behind a truthy [id] argument. *)
Definition str_of (x : jsarg) : string :=
  match x with
  | JStr s => s
  | _ => ""
  end.

Definition getNote (ctx : Ctx) (i : jsarg) : M (option Note) :=
  if falsy i then ret None
  else
    match ctx with
    | IndexedDB => getIndexed (str_of i)
    | LocalStorage key =>
        items <- readLS key ;;
        ret (find (id_is (str_of i)) items)
    end.

Definition createNote (ctx : Ctx) : M Note :=
  t_id <- Date_now ;;
  r <- Math_random_suffix ;;
  t_created <- Date_now ;;
  t_updated <- Date_now ;;
  let note :=
    {| id := "note_" ++ decimal t_id ++ "_" ++ r;
       title := "Untitled";
       content := "";
       createdAt := t_created;
       updatedAt := t_updated |} in
  match ctx with
  | IndexedDB =>
      putIndexed note ;;
      ret note
  | LocalStorage key =>
      items <- readLS key ;;
      writeLS key (items ++ [note]) ;;
      ret note
  end.

Definition updateNote (ctx : Ctx) (i : jsarg) (updates : Updates) : M (option Note) :=
  if falsy i then ret None
  else
    match ctx with
    | IndexedDB =>
        existing <- getIndexed (str_of i) ;;
        match existing with
        | None => ret None
        | Some existing =>
            now <- Date_now ;;
            let next := spread_update existing updates now in
            putIndexed next ;;
            ret (Some next)
        end
    | LocalStorage key =>
        items <- readLS key ;;
        match findIndex (id_is (str_of i)) items with
        | None => ret None
        | Some idx =>
            match items !! idx with
            | None => ret None  (* not reached: [idx] is an index of [items] *)
            | Some existing =>
                now <- Date_now ;;
                let next := spread_update existing updates now in
                writeLS key (<[idx := next]> items) ;;
                ret (Some next)
            end
        end
    end.

Definition deleteNote (ctx : Ctx) (i : jsarg) : M unit :=
  if falsy i then ret tt
  else
    match ctx with
    | IndexedDB => deleteIndexed (str_of i)
    | LocalStorage key =>
        items <- readLS key ;;
        let next := List.filter (λ n, negb (id_is (str_of i) n)) items in
        writeLS key next
    end.

(** ** Arrays shared by reference *)

(** [filterNotes] may return the very array it was given and
    [sortNotesByUpdated] sorts a copy in place, so the arrays of these two
    functions are addresses into a heap of arrays. *)
Abbreviation aref := nat (only parsing).
Abbreviation Heap := (list (list Note)) (only parsing).

Definition deref (hp : Heap) (a : aref) : list Note := default [] (hp !! a).

(** A new array ([\[...notes\]], the result of [filter]) gets the next free
    address. *)
Definition alloc (l : list Note) (hp : Heap) : aref * Heap :=
  (length hp, (hp ++ [l])%list).

(** [a.sort(cmp)] sorts the array at [a] in place and returns [a]. *)
Definition sort_in_place (cmp : Note → Note → Z) (a : aref) (hp : Heap) : aref * Heap :=
  (a, <[a := Array_sort cmp (deref hp a)]> hp).

(** ** Strings *)

(** A string is the sequence of its characters, [s.includes(q)] a search
    for a run of equal characters. A character is one of 256 values: text of
    the ASCII range is held one character for each UTF-16 unit, as JavaScript
    holds it; for other text the statements below say what they say of the
    sequence that stands for it.

    [String.prototype.toLowerCase] is a builtin of the host that follows the
    Unicode case tables; it is not code of the module. The functions that
    call it take it as the parameter [toLowerCase], and nothing is supposed
    of it but, where a statement says so, what the language fixes for text of
    the ASCII range ([lowers_ascii]): there each capital letter of the table
    below becomes its small letter and every other character stays. *)
Definition letters : list (ascii * ascii) :=
  zip (list_ascii_of_string "ABCDEFGHIJKLMNOPQRSTUVWXYZ")
      (list_ascii_of_string "abcdefghijklmnopqrstuvwxyz").

(** The small letter of a capital letter of the table; any other character
    itself. *)
Definition small_letter (c : ascii) : ascii :=
  match find (λ p : ascii * ascii, bool_decide (p.1 = c)) letters with
  | Some p => p.2
  | None => c
  end.

Fixpoint ascii_lower (s : string) : string :=
  match s with
  | EmptyString => EmptyString
  | String c s' => String (small_letter c) (ascii_lower s')
  end.

(** Text of the ASCII range: every character is below 128. *)
Fixpoint ascii_text (s : string) : bool :=
  match s with
  | EmptyString => true
  | String c s' => (nat_of_ascii c <? 128)%nat && ascii_text s'
  end.

(** What the language fixes for [toLowerCase] on text of the ASCII range. *)
Definition lowers_ascii (toLowerCase : string → string) : Prop :=
  ∀ s, ascii_text s = true → toLowerCase s = ascii_lower s.

Fixpoint starts_with (q s : string) : bool :=
  match q, s with
  | EmptyString, _ => true
  | String a q', String b s' => bool_decide (a = b) && starts_with q' s'
  | String _ _, EmptyString => false
  end.

(** [s.includes(q)] *)
Fixpoint includes (s q : string) : bool :=
  starts_with q s ||
  match s with
  | EmptyString => false
  | String _ s' => includes s' q
  end.

(** ** Query and sort utilities *)

(** The predicate of the [filter] call, [q] being the lowered query. *)
Definition matches (toLowerCase : string → string) (q : string) (n : Note) : bool :=
  includes (toLowerCase (or_str (title n) "")) q
  || includes (toLowerCase (or_str (content n) "")) q.

Definition filterNotes (toLowerCase : string → string)
    (notes : aref) (query : jsarg) (hp : Heap) : aref * Heap :=
  if falsy query then (notes, hp)
  else
    let q := toLowerCase (str_of query) in
    alloc (List.filter (matches toLowerCase q) (deref hp notes)) hp.

Definition sortNotesByUpdated (notes : aref) (hp : Heap) : aref * Heap :=
  let (copy, hp1) := alloc (deref hp notes) hp in
  sort_in_place by_updated_desc copy hp1.

(** * Specification vocabulary *)

(** The collection a context denotes: the array a stored text stands for
    (anything but a stored array is the empty collection), or the records of
    the object store. *)
Definition ls_collection (raw : option raw_item) : list Note :=
  match raw with
  | Some (RawArray items) => items
  | _ => []
  end.

Definition collection (ctx : Ctx) (s : Store) : list Note :=
  match ctx with
  | IndexedDB => idb_records (idb s)
  | LocalStorage key => ls_collection (ls s !! key)
  end.

Definition present (ctx : Ctx) (s : Store) (i : string) : Prop :=
  ∃ n, n ∈ collection ctx s ∧ id n = i.

(** The backend requests a call of the given context can make all succeed. *)
Definition reads_ok (ctx : Ctx) (h : Host) : bool :=
  match ctx with
  | IndexedDB => idb_getAll_ok h && idb_get_ok h
  | LocalStorage _ => ls_get_ok h
  end.

Definition writes_ok (ctx : Ctx) (h : Host) : bool :=
  match ctx with
  | IndexedDB => idb_put_ok h && idb_delete_ok h
  | LocalStorage _ => ls_set_ok h
  end.

(** The host that differs from [h] only in that [setItem] succeeds. *)
Definition set_succeeds (h : Host) : Host :=
  mkHost (now_at h) (random_suffix h) (idb_supported h) (idb_open_ok h)
    (idb_getAll_ok h) (idb_get_ok h) (idb_put_ok h) (idb_delete_ok h)
    (ls_get_ok h) true.

(** Ordered by [updatedAt], newest first. *)
Definition newest_first (l : list Note) : Prop :=
  StronglySorted (λ a b, updatedAt b ≤ updatedAt a) l.

(** The notes of [l] stamped [t], in the order they have in [l]. *)
Definition stamped (t : Z) (l : list Note) : list Note :=
  List.filter (λ n, bool_decide (updatedAt n = t)) l.

(** [x] occurs in [s]: [s] is [x] with something before and after it. *)
Definition occurs (x s : string) : Prop :=
  ∃ pre post, s = (pre ++ x ++ post)%string.

(** Case of letters, said by the place of a character in the ASCII table
    and not by what [toLowerCase] does: the capital letters stand at the
    places 65 to 90, each small letter 32 places after its capital. *)
Definition capital (c : ascii) : Prop :=
  (65 ≤ nat_of_ascii c ≤ 90)%nat.

Definition small_of (a b : ascii) : Prop :=
  capital a ∧ nat_of_ascii b = (nat_of_ascii a + 32)%nat.

(** Two characters that are the same letter: the same character, or a
    capital letter and its small letter. *)
Definition same_letter (a b : ascii) : Prop :=
  a = b ∨ small_of a b ∨ small_of b a.

(** Two strings that differ at most in the case of their letters. *)
Inductive caseless : string → string → Prop :=
  | caseless_empty : caseless EmptyString EmptyString
  | caseless_char a b s t :
      same_letter a b → caseless s t →
      caseless (String a s) (String b t).

(** [q] occurs in [s] up to the case of letters. *)
Definition ci_substring (q s : string) : Prop :=
  ∃ pre mid post, s = (pre ++ mid ++ post)%string ∧ caseless mid q.

(** ** Histories of the store *)

Inductive op :=
  | OpCreate
  | OpUpdate (i : jsarg) (updates : Updates)
  | OpDelete (i : jsarg).

(** The identifier and creation time handed out by each [createNote] that
    returned, newest first. *)
Definition Births := list (string * Z).

Definition born {A} (r : result A) (f : A → string * Z) (b : Births) : Births :=
  match r with
  | Ok a => f a :: b
  | Rejected _ => b
  end.

Definition run_op (ctx : Ctx) (o : op) (h : Host) (wb : World * Births) : World * Births :=
  match o with
  | OpCreate =>
      let (r, w') := createNote ctx h wb.1 in
      (w', born r (λ n, (id n, createdAt n)) wb.2)
  | OpUpdate i updates => ((updateNote ctx i updates h wb.1).2, wb.2)
  | OpDelete i => ((deleteNote ctx i h wb.1).2, wb.2)
  end.

(** The states reached from [start] by operations that [allowed] admits. *)
Inductive reachable (allowed : op → Host → World * Births → Prop)
    (ctx : Ctx) (start : World * Births) : World * Births → Prop :=
  | reach_start : reachable allowed ctx start start
  | reach_step wb o h :
      reachable allowed ctx start wb →
      allowed o h wb →
      reachable allowed ctx start (run_op ctx o h wb).

Definition any_op (o : op) (h : Host) (wb : World * Births) : Prop := True.

(** The identifier the next [createNote] builds. *)
Definition next_id (h : Host) (w : World) : string :=
  "note_" ++ decimal (now_at h (ticks w)) ++ "_" ++ random_suffix h.

(** Updates that leave [id] and [createdAt] alone, creations that draw an
    identifier never handed out before. *)
Definition identity_preserving (o : op) (h : Host) (wb : World * Births) : Prop :=
  match o with
  | OpCreate => next_id h wb.1 ∉ wb.2.*1
  | OpUpdate _ updates => u_id updates = None ∧ u_createdAt updates = None
  | OpDelete _ => True
  end.

(** No identifier occurs twice in the collection [l], and every note of [l]
    carries an identifier and a creation time recorded in [b]. *)
Definition kept (b : Births) (l : list Note) : Prop :=
  NoDup (id <$> l) ∧ ∀ n, n ∈ l → (id n, createdAt n) ∈ b.

(** Every stored note carries the identifier and creation time it was born
    with (each identifier was handed out once), and no identifier is stored
    twice. *)
Definition identity_kept (ctx : Ctx) (wb : World * Births) : Prop :=
  NoDup (id <$> collection ctx (store wb.1))
  ∧ NoDup wb.2.*1
  ∧ ∀ n, n ∈ collection ctx (store wb.1) → (id n, createdAt n) ∈ wb.2.

(** ** Concrete hosts and states *)

Definition empty_world : World := mkWorld (mkStore ∅ ∅) 0.

(** Every request succeeds; the clock advances by one per reading. *)
Definition ticking_host : Host :=
  mkHost (λ k, 1000 + Z.of_nat k) "k3x9ab" true true true true true true true true.

(** Every request succeeds; the clock stands still. *)
Definition frozen_host : Host :=
  mkHost (λ _, 1000) "k3x9ab" true true true true true true true true.

(** No IndexedDB in the window. *)
Definition no_idb_host : Host :=
  mkHost (λ _, 1000) "k3x9ab" false false false false false false true true.

(** Every write request fails. *)
Definition full_disk_host : Host :=
  mkHost (λ _, 1000) "k3x9ab" true true true true false false true false.

Definition ls_ctx : Ctx := LocalStorage notes_key.

Definition sample_note : Note := mkNote "n1" "Shopping list" "Milk" 10 20.
Definition other_note : Note := mkNote "n2" "Untitled" "shop later" 11 30.

Definition world_with (l : list Note) : World :=
  mkWorld (mkStore (list_to_map ((λ n, (id n, rest_of n)) <$> l))
                   {[ notes_key := RawArray l ]}) 0.

(** localStorage holds the text of the empty array. *)
Definition emptied_world : World :=
  mkWorld (mkStore ∅ {[ notes_key := RawArray [] ]}) 0.

(** localStorage holds a text that is not JSON. *)
Definition garbled_world : World :=
  mkWorld (mkStore ∅ {[ notes_key := RawMalformed ]}) 0.

(** The three values of an [id] or [query] argument that [!x] rejects. *)
Definition absent_arg (i : jsarg) : Prop :=
  i = JNull ∨ i = JUndefined ∨ i = JStr "".

(** [{ title: T }] *)
Definition title_only (T : string) : Updates :=
  mkUpdates None (Some T) None None None.

(** The note [updateNote] and [getNote] find under an identifier: the record
    under that key, or the first element of the stored array that has it. *)
Definition lookup_note (ctx : Ctx) (s : Store) (i : string) : option Note :=
  match ctx with
  | IndexedDB => note_of i <$> idb s !! i
  | LocalStorage key => find (id_is i) (ls_collection (ls s !! key))
  end.

(** The note the next [createNote] builds: the identifier from the first
    clock reading and the random draw, the two stamps from the second and
    the third reading. *)
Definition new_note (h : Host) (w : World) : Note :=
  {| id := next_id h w;
     title := "Untitled";
     content := "";
     createdAt := now_at h (S (ticks w));
     updatedAt := now_at h (S (S (ticks w))) |}.

(** Store [s'] is store [s] with the note [n] found under [i] replaced by
    [next], and nothing else touched: the record under the key is
    overwritten, or the array element at the position of [n] is. *)
Definition replaced (ctx : Ctx) (s s' : Store) (i : string) (n next : Note) : Prop :=
  match ctx with
  | IndexedDB =>
      idb s' = <[i := rest_of next]> (idb s) ∧ ls s' = ls s
  | LocalStorage key =>
      ∃ idx : nat,
        ls_collection (ls s !! key) !! idx = Some n
        ∧ ls s' = <[key := RawArray (<[idx := next]> (ls_collection (ls s !! key)))]> (ls s)
        ∧ idb s' = idb s
  end.

(** Histories that overwrite identity fields, or draw the same identifier
    twice (the clock of [frozen_host] stands still and its random draw is
    always the same). *)
Definition restamp : Updates := mkUpdates None None None (Some 5) None.
Definition rename : Updates := mkUpdates (Some "n9") None None None None.

Definition after_create : World * Births :=
  run_op ls_ctx OpCreate frozen_host (empty_world, []).

Definition after_restamp : World * Births :=
  run_op ls_ctx (OpUpdate (JStr "note_1000_k3x9ab") restamp) frozen_host after_create.

Definition after_rename : World * Births :=
  run_op ls_ctx (OpUpdate (JStr "note_1000_k3x9ab") rename) frozen_host after_create.

Definition after_two_creates : World * Births :=
  run_op ls_ctx OpCreate frozen_host after_create.

(** The note [n] with a new title and a new [updatedAt], and nothing else
    changed. *)
Definition retitled (n : Note) (T : string) (now : Z) : Note :=
  mkNote (id n) T (content n) (createdAt n) now.

(** [{ content: c }] *)
Definition content_only (c : string) : Updates :=
  mkUpdates None None (Some c) None None.

(** IndexedDB is there but [indexedDB.open] fails. *)
Definition open_fails_host : Host :=
  mkHost (λ k, 1000 + Z.of_nat k) "k3x9ab" true false true true true true true true.

(** * The callers: the [App] component *)

(** The part of the component's state the storage calls read and set:
    [ctx] ([null] until [initStorage] has returned), [notes], [activeId] and
    [query]. A handler is a computation from the state it captured to the
    state its setters leave; when the computation is rejected no setter after
    the failing [await] has run. The host behaves as its [Host] record says
    for the whole handler. *)
Record UI := mkUI {
  ui_ctx : option Ctx;
  ui_notes : list Note;
  ui_activeId : jsarg;
  ui_query : string;
}.

(** [n.id === activeId], the state being [null], [undefined] or a string. *)
Definition id_eq (a : jsarg) (n : Note) : bool :=
  match a with
  | JStr s => bool_decide (id n = s)
  | JNull | JUndefined => false
  end.

(** [items[0]?.id || null] *)
Definition first_id_or_null (items : list Note) : jsarg :=
  match items with
  | [] => JNull
  | first :: _ => if bool_decide (id first = "") then JNull else JStr (id first)
  end.

Definition refreshNotes (keepActive : bool) (u : UI) : M UI :=
  match ui_ctx u with
  | None => ret u
  | Some ctx =>
      items <- listNotes ctx ;;
      if negb keepActive then
        ret (mkUI (ui_ctx u) items (first_id_or_null items) (ui_query u))
      else
        match items with
        | first :: _ =>
            if existsb (id_eq (ui_activeId u)) items
            then ret (mkUI (ui_ctx u) items (ui_activeId u) (ui_query u))
            else ret (mkUI (ui_ctx u) items (JStr (id first)) (ui_query u))
        | [] => ret (mkUI (ui_ctx u) items (ui_activeId u) (ui_query u))
        end
  end.

(** [notes.find(n => n.id === activeId) || null] *)
Definition activeNote (u : UI) : option Note :=
  find (id_eq (ui_activeId u)) (ui_notes u).

(** The focus of the title input, set on a timer, is not part of the state. *)
Definition handleCreate (u : UI) : M UI :=
  match ui_ctx u with
  | None => ret u
  | Some ctx =>
      n <- createNote ctx ;;
      u1 <- refreshNotes true u ;;
      ret (mkUI (ui_ctx u1) (ui_notes u1) (JStr (id n)) (ui_query u1))
  end.

(** [confirmed] is the answer of the [confirm] dialog. *)
Definition handleDelete (confirmed : bool) (u : UI) : M UI :=
  match ui_ctx u with
  | None => ret u
  | Some ctx =>
      if falsy (ui_activeId u) then ret u
      else if negb confirmed then ret u
      else
        deleteNote ctx (ui_activeId u) ;;
        refreshNotes false u
  end.

(** [sortNotesByUpdated(filterNotes(notes, query))], on the array heap. *)
Definition visibleNotes (toLowerCase : string → string)
    (notes : aref) (query : string) (hp : Heap) : aref * Heap :=
  let (filtered, hp1) := filterNotes toLowerCase notes (JStr query) hp in
  sortNotesByUpdated filtered hp1.

(** * More specification vocabulary *)

(** Every request of the host succeeds. *)
Definition all_ok (h : Host) : Prop :=
  idb_open_ok h = true ∧ idb_getAll_ok h = true ∧ idb_get_ok h = true
  ∧ idb_put_ok h = true ∧ idb_delete_ok h = true
  ∧ ls_get_ok h = true ∧ ls_set_ok h = true.

(** The world an operation leaves. *)
Definition exec (ctx : Ctx) (o : op) (h : Host) (w : World) : World :=
  match o with
  | OpCreate => (createNote ctx h w).2
  | OpUpdate i updates => (updateNote ctx i updates h w).2
  | OpDelete i => (deleteNote ctx i h w).2
  end.

(** The two variants hold the same notes: the array stored under [key] has
    no identifier twice and its elements are the records of the object
    store. *)
Definition agree (key : string) (s : Store) : Prop :=
  NoDup (id <$> ls_collection (ls s !! key))
  ∧ ∀ n, n ∈ ls_collection (ls s !! key) ↔ n ∈ idb_records (idb s).

(** The store left when the operation is run on each variant from the same
    world: the object store of the IndexedDB run beside the localStorage of
    the localStorage run. *)
Definition run_both (key : string) (o : op) (h : Host) (w : World) : Store :=
  mkStore (idb (store (exec IndexedDB o h w)))
          (ls (store (exec (LocalStorage key) o h w))).

(** Operations on which the variants can be compared: an update keeps the
    id, a creation draws an identifier no stored note has. *)
Definition comparable (key : string) (o : op) (h : Host) (w : World) : Prop :=
  match o with
  | OpCreate => ¬ present IndexedDB (store w) (next_id h w)
  | OpUpdate _ updates => u_id updates = None
  | OpDelete _ => True
  end.

(** The elements of the array a heap function returned. *)
Definition contents (r : aref * Heap) : list Note := deref r.2 r.1.

(** The read requests of the context fail. *)
Definition read_fails (ctx : Ctx) (h : Host) : bool :=
  match ctx with
  | IndexedDB => negb (idb_getAll_ok h) && negb (idb_get_ok h)
  | LocalStorage _ => negb (ls_get_ok h)
  end.

(** Every read request fails, every write request succeeds. *)
Definition unreadable_host : Host :=
  mkHost (λ _, 1000) "k3x9ab" true true false false true true false true.

(** * Proofs *)

(** ** Running the primitives *)

Ltac run_m :=
  unfold getIndexed, putIndexed, deleteIndexed, getAllIndexed,
    localStorage_getItem, localStorage_setItem, JSON_parse, Date_now,
    Math_random_suffix, openDB, try_catch, bind, ret, throw, ask,
    get_store, put_store; simpl.

Lemma readLS_eq key h w :
  readLS key h w
  = (Ok (if ls_get_ok h then ls_collection (ls (store w) !! key) else []), w).
Proof.
  unfold readLS. run_m. destruct (ls_get_ok h); simpl; [|reflexivity].
  destruct (ls (store w) !! key) as [[| | |items]|]; reflexivity.
Qed.

Lemma writeLS_eq key data h w :
  writeLS key data h w
  = (Ok tt,
     if ls_set_ok h
     then mkWorld (mkStore (idb (store w)) (<[key := RawArray data]> (ls (store w)))) (ticks w)
     else w).
Proof. unfold writeLS. run_m. destruct (ls_set_ok h); reflexivity. Qed.

Lemma note_of_rest_of n : note_of (id n) (rest_of n) = n.
Proof. destruct n; reflexivity. Qed.

Lemma rest_of_note_of k r : rest_of (note_of k r) = r.
Proof. destruct r; reflexivity. Qed.

Lemma falsy_absent i : falsy i = true ↔ absent_arg i.
Proof.
  unfold absent_arg. destruct i as [| |s]; simpl.
  - intuition.
  - intuition.
  - rewrite bool_decide_eq_true. split.
    + intros ->. auto.
    + intros [H|[H|H]]; congruence.
Qed.

Lemma falsy_JStr s : s ≠ "" → falsy (JStr s) = false.
Proof. intros H. simpl. by apply bool_decide_eq_false. Qed.

(** ** Searching an array *)

Lemma findIndex_None {A} (p : A → bool) l :
  findIndex p l = None ↔ ∀ x, x ∈ l → p x = false.
Proof.
  induction l as [|y l IH]; simpl.
  - split; [|done]. intros _ x Hx. by apply elem_of_nil in Hx.
  - destruct (p y) eqn:Hy.
    + split; [done|]. intros H. specialize (H y (list_elem_of_here _ _)). congruence.
    + destruct (findIndex p l) eqn:Hf; simpl.
      * split; [done|]. intros H.
        assert (Some n = None) as Hn; [|done].
        apply IH. intros x Hx. apply H. by apply list_elem_of_further.
      * split; [|done]. intros _ x Hx. apply elem_of_cons in Hx as [->|Hx]; [done|].
        by apply IH.
Qed.

Lemma findIndex_Some {A} (p : A → bool) l idx :
  findIndex p l = Some idx → ∃ x, l !! idx = Some x ∧ p x = true ∧ find p l = Some x.
Proof.
  revert idx. induction l as [|y l IH]; simpl; intros idx H; [done|].
  destruct (p y) eqn:Hy.
  - injection H as <-. eauto.
  - destruct (findIndex p l) as [j|] eqn:Hf; simpl in H; [|done].
    injection H as <-. destruct (IH j eq_refl) as (x & ? & ? & ?). eauto.
Qed.

Lemma find_Some_findIndex {A} (p : A → bool) l x :
  find p l = Some x → ∃ idx, findIndex p l = Some idx ∧ l !! idx = Some x ∧ p x = true.
Proof.
  induction l as [|y l IH]; simpl; [done|].
  destruct (p y) eqn:Hy.
  - intros [= <-]. exists 0%nat. eauto.
  - intros H. destruct (IH H) as (idx & -> & ? & ?). exists (S idx). eauto.
Qed.

(** ** The records of the object store *)

Lemma elem_of_idb_records m n :
  n ∈ idb_records m ↔ m !! id n = Some (rest_of n).
Proof.
  unfold idb_records. rewrite list_elem_of_fmap. split.
  - intros ([k r] & -> & Hkr). apply elem_of_map_to_list in Hkr. simpl.
    by rewrite rest_of_note_of.
  - intros H. exists (id n, rest_of n). split.
    + simpl. by rewrite note_of_rest_of.
    + by apply elem_of_map_to_list.
Qed.

Lemma idb_records_ids m : id <$> idb_records m = (map_to_list m).*1.
Proof.
  unfold idb_records. rewrite <- list_fmap_compose. apply list_fmap_ext.
  intros ? [k r] _. reflexivity.
Qed.

Lemma NoDup_idb_ids m : NoDup (id <$> idb_records m).
Proof. rewrite idb_records_ids. apply NoDup_fst_map_to_list. Qed.

Lemma present_idb s i : present IndexedDB s i ↔ is_Some (idb s !! i).
Proof.
  unfold present. simpl. split.
  - intros (n & Hn & <-). apply elem_of_idb_records in Hn. eauto.
  - intros [r Hr]. exists (note_of i r). split; [|done].
    apply elem_of_idb_records. simpl. by rewrite rest_of_note_of.
Qed.

Lemma not_present_ls key s i :
  ¬ present (LocalStorage key) s i →
  findIndex (id_is i) (ls_collection (ls s !! key)) = None.
Proof.
  intros H. apply findIndex_None. intros n Hn. unfold id_is.
  apply bool_decide_eq_false. intros Hid. apply H. by exists n.
Qed.

(** ** Calls with an absent id *)

(** C10. When the [id] argument is [null], [undefined] or the empty string,
    [getNote] and [updateNote] return [null], [deleteNote] returns, and none
    of the three touches the stored data (nor reads the clock): the world
    after the call is the world before it. *)
Theorem absent_id_no_effect ctx i updates h w :
  absent_arg i →
  getNote ctx i h w = (Ok None, w)
  ∧ updateNote ctx i updates h w = (Ok None, w)
  ∧ deleteNote ctx i h w = (Ok tt, w).
Proof.
  intros Hi. apply falsy_absent in Hi.
  unfold getNote, updateNote, deleteNote. rewrite Hi. by repeat split.
Qed.

Lemma absent_id_no_effect_witness :
  absent_arg JNull
  ∧ getNote IndexedDB JNull ticking_host (world_with [sample_note])
    = (Ok None, world_with [sample_note]).
Proof.
  assert (absent_arg JNull) as Hi by (left; reflexivity).
  split; [exact Hi|].
  exact (proj1 (absent_id_no_effect IndexedDB JNull (title_only "x") ticking_host
                  (world_with [sample_note]) Hi)).
Defined.

(** ** Updating an unknown id *)

(** C3. For an id that no stored note has, [updateNote] returns [null] and
    leaves the world as it was, so the stored collection and its size are
    unchanged. Under IndexedDB this supposes that the [get] request succeeds
    (otherwise the promise is rejected); under localStorage nothing is
    supposed. *)
Theorem updateNote_unknown_id ctx i updates h w :
  (ctx = IndexedDB → idb_get_ok h = true) →
  ¬ present ctx (store w) i →
  updateNote ctx (JStr i) updates h w = (Ok None, w)
  ∧ length (collection ctx (store (updateNote ctx (JStr i) updates h w).2))
    = length (collection ctx (store w)).
Proof.
  intros Hok Habs.
  assert (updateNote ctx (JStr i) updates h w = (Ok None, w)) as E.
  { unfold updateNote. destruct (falsy (JStr i)) eqn:Hf; [reflexivity|].
    destruct ctx as [|key]; simpl str_of.
    - rewrite present_idb in Habs. apply eq_None_not_Some in Habs.
      run_m. rewrite Hok by reflexivity. simpl. by rewrite Habs.
    - unfold bind at 1. rewrite readLS_eq.
      destruct (ls_get_ok h).
      + by rewrite (not_present_ls _ _ _ Habs).
      + reflexivity. }
  rewrite E. done.
Qed.

Lemma updateNote_unknown_id_witness :
  updateNote IndexedDB (JStr "n7") (title_only "x") ticking_host (world_with [sample_note])
  = (Ok None, world_with [sample_note]).
Proof.
  refine (proj1 (updateNote_unknown_id IndexedDB "n7" (title_only "x") ticking_host
                   (world_with [sample_note]) _ _)).
  - reflexivity.
  - rewrite present_idb. vm_compute. intros [r Hr]. discriminate Hr.
Defined.

(** ** Deleting *)

Lemma filter_id_idem i (items : list Note) :
  List.filter (λ n, negb (id_is i n)) (List.filter (λ n, negb (id_is i n)) items)
  = List.filter (λ n, negb (id_is i n)) items.
Proof.
  induction items as [|n items IH]; simpl; [done|].
  destruct (negb (id_is i n)) eqn:Hn; simpl; [|done].
  by rewrite Hn, IH.
Qed.

Lemma filter_id_absent i (items : list Note) :
  (∀ n, n ∈ items → id n ≠ i) →
  List.filter (λ n, negb (id_is i n)) items = items.
Proof.
  induction items as [|n items IH]; simpl; intros H; [done|].
  assert (id_is i n = false) as ->.
  { apply bool_decide_eq_false, H, list_elem_of_here. }
  simpl. f_equal. apply IH. intros m Hm. apply H. by apply list_elem_of_further.
Qed.

Lemma deleteNote_ls_eq key i h w :
  falsy i = false →
  deleteNote (LocalStorage key) i h w
  = (Ok tt,
     if ls_set_ok h
     then mkWorld (mkStore (idb (store w))
            (<[key := RawArray
                 (List.filter (λ n, negb (id_is (str_of i) n))
                    (if ls_get_ok h then ls_collection (ls (store w) !! key) else []))]>
               (ls (store w)))) (ticks w)
     else w).
Proof.
  intros Hf. unfold deleteNote. rewrite Hf. unfold bind. rewrite readLS_eq.
  by rewrite writeLS_eq.
Qed.

Lemma deleteNote_idb_eq i h w :
  falsy i = false →
  deleteNote IndexedDB i h w
  = if idb_delete_ok h
    then (Ok tt, mkWorld (mkStore (delete (str_of i) (idb (store w))) (ls (store w))) (ticks w))
    else (Rejected IDBRequestError, w).
Proof.
  intros Hf. unfold deleteNote. rewrite Hf. run_m. by destruct (idb_delete_ok h).
Qed.

(** C9. [deleteNote] is idempotent: a second call with the same id leaves
    the world exactly as the first call left it (whatever the host does with
    the requests). When no stored note has the id and the requests of the
    backend succeed, the call returns without error and the collection is the
    same as before. *)
Theorem deleteNote_idempotent ctx i h w :
  (deleteNote ctx i h (deleteNote ctx i h w).2).2 = (deleteNote ctx i h w).2
  ∧ (reads_ok ctx h = true → writes_ok ctx h = true →
     ¬ present ctx (store w) (str_of i) →
     (deleteNote ctx i h w).1 = Ok tt
     ∧ collection ctx (store (deleteNote ctx i h w).2) = collection ctx (store w)).
Proof.
  destruct (falsy i) eqn:Hf.
  { unfold deleteNote. rewrite Hf. simpl. by repeat split. }
  destruct ctx as [|key].
  - rewrite !deleteNote_idb_eq by done. split.
    + destruct (idb_delete_ok h) eqn:Hd; simpl; [|done].
      by rewrite delete_delete_eq.
    + simpl. intros _ [_ Hd]%andb_prop Habs. rewrite Hd. simpl. split; [done|].
      rewrite present_idb in Habs. apply eq_None_not_Some in Habs.
      by rewrite delete_id.
  - rewrite !deleteNote_ls_eq by done. split.
    + destruct (ls_set_ok h) eqn:Hs; simpl; [|done].
      rewrite lookup_insert_eq, insert_insert_eq. simpl.
      destruct (ls_get_ok h); simpl; [|done]. by rewrite filter_id_idem.
    + simpl. intros Hg Hs Habs. rewrite Hg, Hs. simpl. split; [done|].
      rewrite lookup_insert_eq. simpl. apply filter_id_absent.
      intros n Hn Hid. apply Habs. by exists n.
Qed.

Lemma deleteNote_idempotent_witness :
  (deleteNote ls_ctx (JStr "n7") ticking_host (world_with [sample_note])).1 = Ok tt
  ∧ collection ls_ctx
      (store (deleteNote ls_ctx (JStr "n7") ticking_host (world_with [sample_note])).2)
    = collection ls_ctx (store (world_with [sample_note])).
Proof.
  refine (proj2 (deleteNote_idempotent ls_ctx (JStr "n7") ticking_host
                   (world_with [sample_note])) _ _ _).
  - reflexivity.
  - reflexivity.
  - intros (n & Hn & Hid). vm_compute in Hn.
    apply list_elem_of_In in Hn. destruct Hn as [<-|[]]. discriminate Hid.
Defined.

(** ** Running the operations *)

Lemma createNote_ls_eq key h w :
  createNote (LocalStorage key) h w
  = (Ok (new_note h w),
     if ls_set_ok h
     then mkWorld (mkStore (idb (store w))
            (<[key := RawArray
                 ((if ls_get_ok h then ls_collection (ls (store w) !! key) else [])
                  ++ [new_note h w])]> (ls (store w)))) (S (S (S (ticks w))))
     else mkWorld (store w) (S (S (S (ticks w))))).
Proof.
  unfold createNote. unfold bind, Date_now, Math_random_suffix, ask, ret. simpl.
  rewrite readLS_eq, writeLS_eq. reflexivity.
Qed.

Lemma createNote_idb_eq h w :
  createNote IndexedDB h w
  = if idb_put_ok h
    then (Ok (new_note h w),
          mkWorld (mkStore (<[next_id h w := rest_of (new_note h w)]> (idb (store w)))
                     (ls (store w))) (S (S (S (ticks w)))))
    else (Rejected IDBRequestError, mkWorld (store w) (S (S (S (ticks w))))).
Proof.
  unfold createNote. run_m. by destruct (idb_put_ok h).
Qed.

Lemma updateNote_idb_eq i updates h w :
  falsy i = false →
  updateNote IndexedDB i updates h w
  = if idb_get_ok h then
      match idb (store w) !! str_of i with
      | None => (Ok None, w)
      | Some r =>
          let next := spread_update (note_of (str_of i) r) updates (now_at h (ticks w)) in
          if idb_put_ok h
          then (Ok (Some next),
                mkWorld (mkStore (<[id next := rest_of next]> (idb (store w)))
                           (ls (store w))) (S (ticks w)))
          else (Rejected IDBRequestError, mkWorld (store w) (S (ticks w)))
      end
    else (Rejected IDBRequestError, w).
Proof.
  intros Hf. unfold updateNote. rewrite Hf. run_m.
  destruct (idb_get_ok h); simpl; [|done].
  destruct (idb (store w) !! str_of i); simpl; [|done].
  by destruct (idb_put_ok h).
Qed.

Lemma updateNote_ls_eq key i updates h w :
  falsy i = false →
  updateNote (LocalStorage key) i updates h w
  = let items := if ls_get_ok h then ls_collection (ls (store w) !! key) else [] in
    match findIndex (id_is (str_of i)) items with
    | None => (Ok None, w)
    | Some idx =>
        match items !! idx with
        | None => (Ok None, w)
        | Some existing =>
            let next := spread_update existing updates (now_at h (ticks w)) in
            (Ok (Some next),
             if ls_set_ok h
             then mkWorld (mkStore (idb (store w))
                    (<[key := RawArray (<[idx := next]> items)]> (ls (store w)))) (S (ticks w))
             else mkWorld (store w) (S (ticks w)))
        end
    end.
Proof.
  intros Hf. unfold updateNote. rewrite Hf. unfold bind at 1. rewrite readLS_eq.
  simpl. destruct (findIndex _ _) as [idx|]; [|done].
  destruct (_ !! idx) as [existing|]; [|done].
  unfold bind, Date_now. rewrite writeLS_eq. simpl. unfold ret.
  by destruct (ls_set_ok h).
Qed.

Lemma listNotes_eq ctx h w :
  reads_ok ctx h = true →
  listNotes ctx h w = (Ok (Array_sort by_updated_desc (collection ctx (store w))), w).
Proof.
  intros Hr. destruct ctx as [|key]; simpl in *.
  - apply andb_prop in Hr as [Hr _]. run_m. by rewrite Hr.
  - unfold bind. rewrite readLS_eq, Hr. reflexivity.
Qed.

(** ** Sorting *)

Lemma sort_insert_perm {A} (cmp : A → A → Z) x l : sort_insert cmp x l ≡ₚ x :: l.
Proof.
  induction l as [|y l IH]; simpl; [done|].
  case_bool_decide; [done|]. rewrite IH. apply Permutation_swap.
Qed.

Lemma Array_sort_perm {A} (cmp : A → A → Z) l : Array_sort cmp l ≡ₚ l.
Proof.
  induction l as [|x l IH]; simpl; [done|].
  by rewrite sort_insert_perm, IH.
Qed.

(** ** Creating, then listing *)

(** C2 (as amended). When the write request of the backend succeeds,
    [createNote] returns a note titled "Untitled" with empty content whose
    [createdAt] and [updatedAt] are the second and the third clock reading of
    the call (so they are equal exactly when the clock does not advance
    between these two readings), and a [listNotes] whose read request
    succeeds, called on the world [createNote] left, returns an array that
    contains that note. *)
Theorem createNote_then_listNotes ctx h h' w :
  writes_ok ctx h = true →
  reads_ok ctx h' = true →
  ∃ n w' l,
    createNote ctx h w = (Ok n, w')
    ∧ title n = "Untitled" ∧ content n = ""
    ∧ createdAt n = now_at h (S (ticks w))
    ∧ updatedAt n = now_at h (S (S (ticks w)))
    ∧ listNotes ctx h' w' = (Ok l, w')
    ∧ n ∈ l.
Proof.
  intros Hw Hr. exists (new_note h w).
  destruct ctx as [|key].
  - simpl in Hw. apply andb_prop in Hw as [Hp _].
    eexists _, _. rewrite createNote_idb_eq, Hp. split; [reflexivity|].
    repeat (split; [reflexivity|]).
    rewrite listNotes_eq by done. split; [reflexivity|].
    rewrite Array_sort_perm. simpl. apply elem_of_idb_records. simpl.
    apply lookup_insert_eq.
  - simpl in Hw. eexists _, _. rewrite createNote_ls_eq, Hw. split; [reflexivity|].
    repeat (split; [reflexivity|]).
    rewrite listNotes_eq by done. split; [reflexivity|].
    rewrite Array_sort_perm. simpl. rewrite lookup_insert_eq. simpl.
    apply elem_of_app. right. apply list_elem_of_here.
Qed.

Lemma createNote_then_listNotes_witness :
  ∃ n w' l,
    createNote ls_ctx frozen_host (world_with [sample_note]) = (Ok n, w')
    ∧ title n = "Untitled" ∧ content n = ""
    ∧ createdAt n = 1000
    ∧ updatedAt n = 1000
    ∧ listNotes ls_ctx ticking_host w' = (Ok l, w')
    ∧ n ∈ l.
Proof.
  exact (createNote_then_listNotes ls_ctx frozen_host ticking_host
           (world_with [sample_note]) eq_refl eq_refl).
Defined.

(** C2, counterexample. On a host whose clock advances by one millisecond at
    each reading, the note [createNote] returns has [createdAt = 1001] and
    [updatedAt = 1002]: the two stamps come from two calls of [Date.now()].
    And with a localStorage whose [setItem] throws, [createNote] returns a
    note that the [listNotes] called next does not contain. *)
Lemma createNote_stamps_differ :
  (∃ n,
     (createNote ls_ctx ticking_host empty_world).1 = Ok n
     ∧ createdAt n = 1001 ∧ updatedAt n = 1002
     ∧ createdAt n ≠ updatedAt n)
  ∧ (∃ n w',
       createNote ls_ctx full_disk_host empty_world = (Ok n, w')
       ∧ listNotes ls_ctx full_disk_host w' = (Ok [], w')).
Proof.
  split.
  - exists (mkNote "note_1000_k3x9ab" "Untitled" "" 1001 1002).
    split; [vm_compute; reflexivity|]. simpl. repeat split; discriminate.
  - eexists _, _. split; vm_compute; reflexivity.
Qed.

(** ** Updating the title *)

Lemma find_insert_found (i : string) (items : list Note) idx n next :
  findIndex (id_is i) items = Some idx →
  items !! idx = Some n →
  id next = i →
  find (id_is i) (<[idx := next]> items) = Some next.
Proof.
  revert idx. induction items as [|m items IH]; intros idx; simpl; [done|].
  destruct (id_is i m) eqn:Hm.
  - intros [= <-] _ Hid. simpl. unfold id_is. by rewrite bool_decide_eq_true_2.
  - destruct (findIndex (id_is i) items) as [j|] eqn:Hj; simpl; [|done].
    intros [= <-] Hn Hid. simpl. rewrite Hm. by apply (IH j).
Qed.

(** C4. [updateNote] with [{ title: T }] changes, at most, the title and
    [updatedAt] of the note found under the id: whatever the host does, the
    stored data after the call are either the stored data before it, or
    these with the found note [n] replaced, in its place, by the note that
    has the id, content and [createdAt] of [n], the title [T] and the clock
    reading as [updatedAt]; every other record of the object store, every
    other element of the stored array and the other backend are exactly as
    before. When the id is not empty and the requests of the backend
    succeed, the replacement does take place and the new note is returned. *)
Theorem updateNote_title_only ctx i T h w :
  (store (updateNote ctx (JStr i) (title_only T) h w).2 = store w
   ∨ ∃ n, lookup_note ctx (store w) i = Some n
          ∧ replaced ctx (store w) (store (updateNote ctx (JStr i) (title_only T) h w).2)
              i n (retitled n T (now_at h (ticks w))))
  ∧ (∀ n, i ≠ "" →
          reads_ok ctx h = true → writes_ok ctx h = true →
          lookup_note ctx (store w) i = Some n →
          (updateNote ctx (JStr i) (title_only T) h w).1
          = Ok (Some (retitled n T (now_at h (ticks w))))
          ∧ lookup_note ctx (store (updateNote ctx (JStr i) (title_only T) h w).2) i
            = Some (retitled n T (now_at h (ticks w)))
          ∧ replaced ctx (store w) (store (updateNote ctx (JStr i) (title_only T) h w).2)
              i n (retitled n T (now_at h (ticks w)))).
Proof.
  split.
  - destruct (falsy (JStr i)) eqn:Hf.
    { left. unfold updateNote. by rewrite Hf. }
    destruct ctx as [|key].
    + rewrite updateNote_idb_eq by done. simpl str_of.
      destruct (idb_get_ok h); [|by left].
      destruct (idb (store w) !! i) as [r|] eqn:Hlk; [|by left]. simpl.
      destruct (idb_put_ok h); [|by left].
      right. exists (note_of i r). simpl. rewrite Hlk. done.
    + rewrite updateNote_ls_eq by done. simpl str_of. simpl.
      destruct (ls_get_ok h); [|by left].
      destruct (findIndex _ _) as [idx|] eqn:Hidx; [|by left].
      destruct (findIndex_Some _ _ _ Hidx) as (n & Hlk & _ & Hfind).
      rewrite Hlk. simpl. destruct (ls_set_ok h); [|by left].
      right. exists n. split; [done|]. by exists idx.
  - intros n Hi Hr Hw Hn.
    destruct ctx as [|key]; simpl in Hr, Hw, Hn.
    + apply andb_prop in Hr as [_ Hg]. apply andb_prop in Hw as [Hp _].
      destruct (idb (store w) !! i) as [r|] eqn:Hlk; simpl in Hn; [|done].
      injection Hn as <-.
      rewrite updateNote_idb_eq by by apply falsy_JStr.
      simpl str_of. rewrite Hg, Hlk. simpl. rewrite Hp. simpl.
      split; [done|]. split; [|done]. by rewrite lookup_insert_eq.
    + destruct (find_Some_findIndex _ _ _ Hn) as (idx & Hidx & Hlk & Hid).
      apply bool_decide_eq_true in Hid.
      rewrite updateNote_ls_eq by by apply falsy_JStr.
      simpl str_of. rewrite Hr. simpl. rewrite Hidx, Hlk, Hw. simpl.
      split; [done|]. split.
      * rewrite lookup_insert_eq. simpl. by apply (find_insert_found _ _ _ n).
      * by exists idx.
Qed.

Lemma updateNote_title_only_witness :
  (updateNote ls_ctx (JStr "n1") (title_only "Groceries") ticking_host
     (world_with [other_note; sample_note])).1
  = Ok (Some (mkNote "n1" "Groceries" "Milk" 10 1000))
  ∧ lookup_note ls_ctx
      (store (updateNote ls_ctx (JStr "n1") (title_only "Groceries") ticking_host
                (world_with [other_note; sample_note])).2) "n1"
    = Some (mkNote "n1" "Groceries" "Milk" 10 1000)
  ∧ replaced ls_ctx (store (world_with [other_note; sample_note]))
      (store (updateNote ls_ctx (JStr "n1") (title_only "Groceries") ticking_host
                (world_with [other_note; sample_note])).2)
      "n1" sample_note (mkNote "n1" "Groceries" "Milk" 10 1000).
Proof.
  refine (proj2 (updateNote_title_only ls_ctx "n1" "Groceries" ticking_host
                   (world_with [other_note; sample_note]))
            sample_note _ eq_refl eq_refl _).
  - discriminate.
  - vm_compute. reflexivity.
Defined.

(** ** Write failures *)

(** C6 (as amended). When the write request of the backend fails: under
    IndexedDB the failure propagates, [createNote], [updateNote] of a stored
    id and [deleteNote] are rejected with the error of the request; under
    localStorage the exception of [setItem] is caught inside [writeLS], so
    each of the three operations returns exactly what it returns on a host
    whose [setItem] succeeds: [createNote] the new note, [updateNote] the
    merged note, [deleteNote] nothing. In both variants the stored data are
    what they were. *)
Theorem write_failure_outcome h w :
  (idb_put_ok h = false →
     createNote IndexedDB h w
     = (Rejected IDBRequestError, mkWorld (store w) (S (S (S (ticks w)))))
     ∧ (∀ i updates, i ≠ "" → present IndexedDB (store w) i →
          (updateNote IndexedDB (JStr i) updates h w).1 = Rejected IDBRequestError)
     ∧ (∀ i updates, store (updateNote IndexedDB i updates h w).2 = store w))
  ∧ (idb_delete_ok h = false →
       ∀ i, i ≠ "" → deleteNote IndexedDB (JStr i) h w = (Rejected IDBRequestError, w))
  ∧ (ls_set_ok h = false →
       ∀ key,
         createNote (LocalStorage key) h w
         = (Ok (new_note h w), mkWorld (store w) (S (S (S (ticks w)))))
         ∧ (createNote (LocalStorage key) h w).1
           = (createNote (LocalStorage key) (set_succeeds h) w).1
         ∧ (∀ i updates,
              (updateNote (LocalStorage key) i updates h w).1
              = (updateNote (LocalStorage key) i updates (set_succeeds h) w).1
              ∧ store (updateNote (LocalStorage key) i updates h w).2 = store w)
         ∧ (∀ i updates n,
              i ≠ "" → ls_get_ok h = true →
              lookup_note (LocalStorage key) (store w) i = Some n →
              (updateNote (LocalStorage key) (JStr i) updates h w).1
              = Ok (Some (spread_update n updates (now_at h (ticks w)))))
         ∧ (∀ i,
              deleteNote (LocalStorage key) i h w = (Ok tt, w)
              ∧ (deleteNote (LocalStorage key) i h w).1
                = (deleteNote (LocalStorage key) i (set_succeeds h) w).1)).
Proof.
  split; [|split].
  - intros Hp. split; [by rewrite createNote_idb_eq, Hp|]. split.
    + intros i updates Hi [r Hr]%present_idb.
      rewrite updateNote_idb_eq by by apply falsy_JStr.
      simpl str_of. rewrite Hr. destruct (idb_get_ok h); simpl; [|done].
      by rewrite Hp.
    + intros i updates. destruct (falsy i) eqn:Hi.
      { unfold updateNote. by rewrite Hi. }
      rewrite updateNote_idb_eq by done.
      destruct (idb_get_ok h); [|done].
      destruct (idb (store w) !! str_of i); [|done]. simpl. by rewrite Hp.
  - intros Hd i Hi. rewrite deleteNote_idb_eq by by apply falsy_JStr.
    by rewrite Hd.
  - intros Hs key. split; [by rewrite createNote_ls_eq, Hs|].
    split; [by rewrite !createNote_ls_eq|]. split; [|split].
    + intros i updates. destruct (falsy i) eqn:Hi.
      { unfold updateNote. by rewrite Hi. }
      rewrite !updateNote_ls_eq by done. simpl. rewrite Hs.
      destruct (findIndex _ _) as [idx|]; [|done].
      by destruct (_ !! idx).
    + intros i updates n Hi Hg Hn. simpl in Hn.
      destruct (find_Some_findIndex _ _ _ Hn) as (idx & Hidx & Hlk & _).
      rewrite updateNote_ls_eq by by apply falsy_JStr.
      simpl str_of. rewrite Hg. simpl. by rewrite Hidx, Hlk.
    + intros i. destruct (falsy i) eqn:Hi.
      { unfold deleteNote. by rewrite Hi. }
      rewrite !deleteNote_ls_eq by done. by rewrite Hs.
Qed.

Lemma write_failure_outcome_witness :
  (updateNote ls_ctx (JStr "n1") (title_only "Groceries") full_disk_host
     (world_with [sample_note])).1
  = Ok (Some (mkNote "n1" "Groceries" "Milk" 10 1000)).
Proof.
  refine (proj1 (proj2 (proj2 (proj2
            (proj2 (proj2 (write_failure_outcome full_disk_host
                             (world_with [sample_note])))
               eq_refl notes_key))))
            "n1" (title_only "Groceries") sample_note _ eq_refl _).
  - discriminate.
  - vm_compute. reflexivity.
Defined.

(** C6, counterexample. With a localStorage whose [setItem] throws,
    [createNote] still returns a note, although the collection is as empty
    afterwards as it was before: the failed write is reported as a success. *)
Lemma createNote_hides_write_failure :
  ls_set_ok full_disk_host = false
  ∧ (createNote ls_ctx full_disk_host empty_world).1
    = Ok (mkNote "note_1000_k3x9ab" "Untitled" "" 1000 1000)
  ∧ collection ls_ctx (store (createNote ls_ctx full_disk_host empty_world).2) = [].
Proof. vm_compute. by repeat split. Qed.

(** ** Identity of stored notes along a history *)

Lemma spread_update_identity existing updates now :
  u_id updates = None → u_createdAt updates = None →
  id (spread_update existing updates now) = id existing
  ∧ createdAt (spread_update existing updates now) = createdAt existing.
Proof. intros Hi Hc. unfold spread_update. simpl. by rewrite Hi, Hc. Qed.

Lemma elem_of_filter_list {A} (f : A → bool) (l : list A) x :
  x ∈ List.filter f l ↔ x ∈ l ∧ f x = true.
Proof. rewrite !list_elem_of_In. apply filter_In. Qed.

Lemma NoDup_fmap_filter {A B} (g : A → B) (f : A → bool) (l : list A) :
  NoDup (g <$> l) → NoDup (g <$> List.filter f l).
Proof.
  induction l as [|x l IH]; simpl; [done|].
  rewrite NoDup_cons. intros [Hx Hl]. destruct (f x); simpl; [|by apply IH].
  apply NoDup_cons. split; [|by apply IH].
  intros (y & Hy & Hin)%list_elem_of_fmap. apply Hx.
  apply list_elem_of_fmap. exists y. split; [done|].
  by apply elem_of_filter_list in Hin as [? _].
Qed.

Lemma elem_of_insert_inv {A} (l : list A) i x y :
  y ∈ <[i := x]> l → y = x ∨ y ∈ l.
Proof.
  intros (j & Hj)%list_elem_of_lookup.
  apply list_lookup_insert_Some in Hj as [(-> & -> & _)|[_ Hj]].
  - by left.
  - right. apply list_elem_of_lookup. eauto.
Qed.

Lemma kept_ids (b : Births) (l : list Note) i :
  (∀ n, n ∈ l → (id n, createdAt n) ∈ b) → i ∉ b.*1 → i ∉ id <$> l.
Proof.
  intros Hl Hi (n & -> & Hn)%list_elem_of_fmap. apply Hi.
  apply list_elem_of_fmap. exists (id n, createdAt n). split; [done|]. by apply Hl.
Qed.

Lemma kept_insert b (l : list Note) idx existing next :
  l !! idx = Some existing →
  id next = id existing → createdAt next = createdAt existing →
  kept b l → kept b (<[idx := next]> l).
Proof.
  intros Hlk Hid Hc [Hnd Hl]. split.
  - rewrite list_fmap_insert, list_insert_id; [done|].
    by rewrite list_lookup_fmap, Hlk, Hid.
  - intros n [->|Hn]%elem_of_insert_inv; [|by apply Hl].
    rewrite Hid, Hc. apply Hl. apply list_elem_of_lookup. eauto.
Qed.

Lemma kept_filter b (f : Note → bool) (l : list Note) :
  kept b l → kept b (List.filter f l).
Proof.
  intros [Hnd Hl]. split; [by apply NoDup_fmap_filter|].
  intros n [Hn _]%elem_of_filter_list. by apply Hl.
Qed.

Lemma elem_of_idb_records_insert m k r n :
  n ∈ idb_records (<[k := r]> m) → n = note_of k r ∨ (id n ≠ k ∧ n ∈ idb_records m).
Proof.
  rewrite !elem_of_idb_records, lookup_insert_Some.
  intros [[-> ->]|[Hne Hn]].
  - left. by rewrite note_of_rest_of.
  - right. by split.
Qed.

Lemma elem_of_idb_records_delete m k n :
  n ∈ idb_records (delete k m) → n ∈ idb_records m.
Proof. rewrite !elem_of_idb_records, lookup_delete_Some. by intros [_ ?]. Qed.

Lemma createNote_keeps ctx h w b :
  identity_kept ctx (w, b) →
  identity_preserving OpCreate h (w, b) →
  identity_kept ctx (run_op ctx OpCreate h (w, b)).
Proof.
  unfold identity_kept, identity_preserving. simpl.
  intros (Hnd & Hb & Hl) Hfresh. destruct ctx as [|key].
  - rewrite createNote_idb_eq. destruct (idb_put_ok h); simpl.
    + split; [apply NoDup_idb_ids|]. split; [by apply NoDup_cons|].
      intros n [->|[_ Hn]]%elem_of_idb_records_insert.
      * apply list_elem_of_here.
      * apply list_elem_of_further. by apply Hl.
    + done.
  - rewrite createNote_ls_eq. simpl in *.
    assert (∀ n, n ∈ collection (LocalStorage key) (store w) →
                 (id n, createdAt n) ∈ (next_id h w, now_at h (S (ticks w))) :: b) as Hl'.
    { intros n Hn. apply list_elem_of_further. by apply Hl. }
    destruct (ls_set_ok h); simpl.
    + rewrite lookup_insert_eq. simpl.
      split; [|split; [by apply NoDup_cons|]].
      * rewrite fmap_app. apply NoDup_app. split; [by destruct (ls_get_ok h); [|constructor]|].
        split; [|apply NoDup_singleton].
        intros i Hi [->|[]%elem_of_nil]%elem_of_cons. revert Hi.
        destruct (ls_get_ok h); [|by intros ?%elem_of_nil].
        by apply (kept_ids b).
      * intros n [Hn|[->|[]%elem_of_nil]%elem_of_cons]%elem_of_app.
        -- destruct (ls_get_ok h); [by apply Hl'|by apply elem_of_nil in Hn].
        -- apply list_elem_of_here.
    + split; [done|]. split; [by apply NoDup_cons|]. done.
Qed.

Lemma updateNote_keeps ctx i updates h w b :
  identity_kept ctx (w, b) →
  identity_preserving (OpUpdate i updates) h (w, b) →
  identity_kept ctx (run_op ctx (OpUpdate i updates) h (w, b)).
Proof.
  unfold identity_kept, identity_preserving. simpl.
  intros (Hnd & Hb & Hl) [Hi Hc].
  destruct (falsy i) eqn:Hf.
  { unfold updateNote. by rewrite Hf. }
  destruct ctx as [|key].
  - rewrite updateNote_idb_eq by done.
    destruct (idb_get_ok h); [|done].
    destruct (idb (store w) !! str_of i) as [r|] eqn:Hr; [|done]. simpl.
    destruct (idb_put_ok h); [|done]. simpl.
    split; [apply NoDup_idb_ids|]. split; [done|].
    destruct (spread_update_identity (note_of (str_of i) r) updates
                (now_at h (ticks w)) Hi Hc) as [Hid Hcr].
    intros n [->|[_ Hn]]%elem_of_idb_records_insert; [|by apply Hl].
    simpl. rewrite Hi, Hc. simpl.
    apply (Hl (note_of (str_of i) r)), elem_of_idb_records.
    simpl. by rewrite rest_of_note_of.
  - rewrite updateNote_ls_eq by done. simpl in *.
    destruct (ls_get_ok h); [|done].
    destruct (findIndex _ _) as [idx|]; [|done].
    destruct (_ !! idx) as [existing|] eqn:Hidx; [|done]. simpl.
    destruct (ls_set_ok h); [|done]. simpl. rewrite lookup_insert_eq. simpl.
    destruct (spread_update_identity existing updates (now_at h (ticks w)) Hi Hc)
      as [Hid Hcr].
    destruct (kept_insert b _ idx existing _ Hidx Hid Hcr (conj Hnd Hl)) as [? ?].
    done.
Qed.

Lemma deleteNote_keeps ctx i h w b :
  identity_kept ctx (w, b) →
  identity_kept ctx (run_op ctx (OpDelete i) h (w, b)).
Proof.
  unfold identity_kept. simpl. intros (Hnd & Hb & Hl).
  destruct (falsy i) eqn:Hf.
  { unfold deleteNote. by rewrite Hf. }
  destruct ctx as [|key].
  - rewrite deleteNote_idb_eq by done. destruct (idb_delete_ok h); [|done]. simpl.
    split; [apply NoDup_idb_ids|]. split; [done|].
    intros n Hn%elem_of_idb_records_delete. by apply Hl.
  - rewrite deleteNote_ls_eq by done. simpl in *.
    destruct (ls_set_ok h); [|done]. simpl. rewrite lookup_insert_eq. simpl.
    destruct (ls_get_ok h).
    + destruct (kept_filter b (λ n, negb (id_is (str_of i) n)) _ (conj Hnd Hl)) as [? ?].
      done.
    + simpl. split; [constructor|]. split; [done|]. by intros n ?%elem_of_nil.
Qed.

(** C5 (as amended). Along every history of [createNote], [updateNote] and
    [deleteNote] calls in which the updates supply neither [id] nor
    [createdAt] and each [createNote] draws an identifier that was never
    handed out before, every stored note has the identifier and the
    [createdAt] that a [createNote] gave it, and no two stored notes share an
    identifier. The history may start from any state of which this is true
    (the empty store, for one). *)
Theorem identity_kept_along_history ctx start wb :
  identity_kept ctx start →
  reachable identity_preserving ctx start wb →
  identity_kept ctx wb.
Proof.
  intros Hstart Hreach. induction Hreach as [|[w b] o h _ IH Hallowed]; [done|].
  destruct o as [|i updates|i].
  - by apply createNote_keeps.
  - by apply updateNote_keeps.
  - by apply deleteNote_keeps.
Qed.

Lemma identity_kept_along_history_witness :
  identity_kept ls_ctx
    (run_op ls_ctx (OpUpdate (JStr "note_1000_k3x9ab") (title_only "Plan")) ticking_host
       (run_op ls_ctx OpCreate ticking_host (empty_world, []))).
Proof.
  apply (identity_kept_along_history ls_ctx (empty_world, [])).
  - split; [constructor|]. split; [constructor|].
    intros n Hn. vm_compute in Hn. by apply elem_of_nil in Hn.
  - apply reach_step; [apply reach_step; [apply reach_start|]|].
    + simpl. apply not_elem_of_nil.
    + split; reflexivity.
Defined.

(** C5, counterexample. From the empty store, one [createNote] followed by
    [updateNote] with [{ createdAt: 5 }] leaves a stored note whose
    [createdAt] is 5, not the 1000 it was created with; with [{ id: "n9" }]
    it leaves a note under an identifier that no [createNote] handed out; and
    two [createNote] calls that read the same clock value and draw the same
    random suffix leave two stored notes with one identifier. *)
Lemma identity_lost :
  (reachable any_op ls_ctx (empty_world, []) after_restamp
   ∧ collection ls_ctx (store after_restamp.1)
     = [mkNote "note_1000_k3x9ab" "Untitled" "" 5 1000]
   ∧ after_restamp.2 = [("note_1000_k3x9ab", 1000)]
   ∧ ¬ identity_kept ls_ctx after_restamp)
  ∧ (reachable any_op ls_ctx (empty_world, []) after_rename
     ∧ collection ls_ctx (store after_rename.1)
       = [mkNote "n9" "Untitled" "" 1000 1000]
     ∧ after_rename.2 = [("note_1000_k3x9ab", 1000)]
     ∧ ¬ identity_kept ls_ctx after_rename)
  ∧ (reachable any_op ls_ctx (empty_world, []) after_two_creates
     ∧ id <$> collection ls_ctx (store after_two_creates.1)
       = ["note_1000_k3x9ab"; "note_1000_k3x9ab"]
     ∧ ¬ identity_kept ls_ctx after_two_creates).
Proof.
  assert (reachable any_op ls_ctx (empty_world, []) after_create) as Hc.
  { apply reach_step; [apply reach_start|exact I]. }
  assert (collection ls_ctx (store after_restamp.1)
          = [mkNote "note_1000_k3x9ab" "Untitled" "" 5 1000]) as E1
    by (vm_compute; reflexivity).
  assert (after_restamp.2 = [("note_1000_k3x9ab", 1000)]) as B1
    by (vm_compute; reflexivity).
  assert (collection ls_ctx (store after_rename.1)
          = [mkNote "n9" "Untitled" "" 1000 1000]) as E2
    by (vm_compute; reflexivity).
  assert (after_rename.2 = [("note_1000_k3x9ab", 1000)]) as B2
    by (vm_compute; reflexivity).
  assert (id <$> collection ls_ctx (store after_two_creates.1)
          = ["note_1000_k3x9ab"; "note_1000_k3x9ab"]) as E3
    by (vm_compute; reflexivity).
  split; [|split].
  - split; [by apply reach_step|]. split; [done|]. split; [done|].
    intros (_ & _ & H). specialize (H _ ltac:(rewrite E1; apply list_elem_of_here)).
    rewrite B1 in H. simpl in H.
    apply list_elem_of_singleton in H. discriminate H.
  - split; [by apply reach_step|]. split; [done|]. split; [done|].
    intros (_ & _ & H). specialize (H _ ltac:(rewrite E2; apply list_elem_of_here)).
    rewrite B2 in H. simpl in H.
    apply list_elem_of_singleton in H. discriminate H.
  - split; [by apply reach_step|]. split; [done|].
    intros (H & _). rewrite E3 in H. apply NoDup_cons in H as [H _].
    apply H, list_elem_of_here.
Qed.

(** ** Sorting by recency *)

Lemma or_num_0 z : or_num z 0 = z.
Proof. unfold or_num. by case_bool_decide. Qed.

Lemma by_updated_desc_le a b : by_updated_desc a b ≤ 0 ↔ updatedAt b ≤ updatedAt a.
Proof. unfold by_updated_desc. rewrite !or_num_0. lia. Qed.

Lemma sort_insert_newest_first x l :
  newest_first l → newest_first (sort_insert by_updated_desc x l).
Proof.
  unfold newest_first. induction l as [|y l IH]; simpl; intros Hl.
  - by repeat constructor.
  - apply StronglySorted_inv in Hl as [Hl Hy].
    case_bool_decide as Hc; rewrite by_updated_desc_le in Hc.
    + constructor; [by constructor|]. constructor; [done|].
      eapply Forall_impl; [exact Hy|]. simpl. intros z Hz. lia.
    + constructor; [by apply IH|].
      rewrite sort_insert_perm. constructor; [lia|done].
Qed.

Lemma Array_sort_newest_first l : newest_first (Array_sort by_updated_desc l).
Proof.
  induction l as [|x l IH]; simpl; [constructor|].
  by apply sort_insert_newest_first.
Qed.

Lemma sort_insert_stamped t x l :
  stamped t (sort_insert by_updated_desc x l) = stamped t (x :: l).
Proof.
  unfold stamped. induction l as [|y l IH]; simpl; [done|].
  case_bool_decide as Hc; [done|]. rewrite by_updated_desc_le in Hc.
  simpl. rewrite IH. simpl.
  destruct (bool_decide (updatedAt x = t)) eqn:Hx; [|done].
  apply bool_decide_eq_true in Hx.
  rewrite (bool_decide_eq_false_2 (updatedAt y = t)) by lia. done.
Qed.

Lemma Array_sort_stamped t l :
  stamped t (Array_sort by_updated_desc l) = stamped t l.
Proof.
  induction l as [|x l IH]; simpl; [done|].
  rewrite sort_insert_stamped. unfold stamped in *. simpl. by rewrite IH.
Qed.

Lemma elem_of_stamped t l n : n ∈ stamped t l ↔ n ∈ l ∧ updatedAt n = t.
Proof. unfold stamped. by rewrite elem_of_filter_list, bool_decide_eq_true. Qed.

Lemma stamped_cons t x l :
  stamped t (x :: l) = if bool_decide (updatedAt x = t) then x :: stamped t l else stamped t l.
Proof. reflexivity. Qed.

Lemma newest_first_head x l n :
  newest_first (x :: l) → n ∈ x :: l → updatedAt n ≤ updatedAt x.
Proof.
  intros [Hl Hx]%StronglySorted_inv [->|Hn]%elem_of_cons; [lia|].
  rewrite Forall_forall in Hx. by apply Hx.
Qed.

(** Two arrays ordered newest first that agree, for every [updatedAt] value,
    on the notes of that value and their order, are the same array. *)
Lemma newest_first_unique out1 out2 :
  newest_first out1 → newest_first out2 →
  (∀ t, stamped t out1 = stamped t out2) →
  out1 = out2.
Proof.
  revert out2. induction out1 as [|x r1 IH]; intros [|y r2] H1 H2 Hst.
  - done.
  - specialize (Hst (updatedAt y)). rewrite stamped_cons in Hst.
    by rewrite bool_decide_eq_true_2 in Hst.
  - specialize (Hst (updatedAt x)). rewrite stamped_cons in Hst.
    by rewrite bool_decide_eq_true_2 in Hst.
  - assert (updatedAt x = updatedAt y) as Hxy.
    { assert (x ∈ y :: r2) as Hx.
      { apply (elem_of_stamped (updatedAt x)). rewrite <- Hst.
        apply elem_of_stamped. split; [apply list_elem_of_here|done]. }
      assert (y ∈ x :: r1) as Hy.
      { apply (elem_of_stamped (updatedAt y)). rewrite Hst.
        apply elem_of_stamped. split; [apply list_elem_of_here|done]. }
      pose proof (newest_first_head _ _ _ H2 Hx).
      pose proof (newest_first_head _ _ _ H1 Hy). lia. }
    pose proof (Hst (updatedAt x)) as Hhead.
    rewrite !stamped_cons, <- Hxy, !bool_decide_eq_true_2 in Hhead by done.
    injection Hhead as -> Htail. f_equal.
    apply StronglySorted_inv in H1 as [H1 _]. apply StronglySorted_inv in H2 as [H2 _].
    apply IH; [done|done|]. intros t. specialize (Hst t).
    rewrite !stamped_cons in Hst. case_bool_decide; [|done]. by injection Hst.
Qed.

(** So the array [Array_sort] computes is the one every stable sort computes
    with this comparator. *)
Lemma Array_sort_unique l out :
  newest_first out → (∀ t, stamped t out = stamped t l) →
  out = Array_sort by_updated_desc l.
Proof.
  intros Hs Hst. apply newest_first_unique; [done|apply Array_sort_newest_first|].
  intros t. by rewrite Array_sort_stamped.
Qed.

Lemma sortNotesByUpdated_eq notes hp :
  sortNotesByUpdated notes hp
  = (length hp, (hp ++ [Array_sort by_updated_desc (deref hp notes)])%list).
Proof.
  unfold sortNotesByUpdated, alloc, sort_in_place, deref.
  rewrite lookup_app_r, Nat.sub_diag by done. simpl.
  rewrite insert_app_r_alt, Nat.sub_diag by done. done.
Qed.

(** C7. [sortNotesByUpdated] returns a new array holding a permutation of
    its input that is ordered by [updatedAt], newest first, in which the
    notes of any one [updatedAt] value keep the order they have in the input;
    the input array, and every other array that existed, is what it was. *)
Theorem sortNotesByUpdated_stable notes hp l :
  hp !! notes = Some l →
  ∃ sorted hp' out,
    sortNotesByUpdated notes hp = (sorted, hp')
    ∧ hp' !! sorted = Some out
    ∧ out ≡ₚ l
    ∧ newest_first out
    ∧ (∀ t, stamped t out = stamped t l)
    ∧ sorted ≠ notes
    ∧ hp' !! notes = Some l
    ∧ (∀ a, (a < length hp)%nat → hp' !! a = hp !! a).
Proof.
  intros Hl. pose proof (lookup_lt_Some _ _ _ Hl) as Hlt.
  eexists _, _, _. rewrite sortNotesByUpdated_eq. split; [reflexivity|].
  unfold deref. rewrite Hl. simpl. split.
  { rewrite lookup_app_r, Nat.sub_diag by done. reflexivity. }
  split; [apply Array_sort_perm|].
  split; [apply Array_sort_newest_first|].
  split; [intros t; apply Array_sort_stamped|].
  split; [lia|].
  split; [by rewrite lookup_app_l|].
  intros a Ha. by rewrite lookup_app_l.
Qed.

Lemma sortNotesByUpdated_stable_witness :
  ∃ sorted hp' out,
    sortNotesByUpdated 0%nat [[sample_note; other_note]] = (sorted, hp')
    ∧ hp' !! sorted = Some out
    ∧ out ≡ₚ [sample_note; other_note]
    ∧ newest_first out
    ∧ (∀ t, stamped t out = stamped t [sample_note; other_note])
    ∧ sorted ≠ 0%nat
    ∧ hp' !! 0%nat = Some [sample_note; other_note]
    ∧ (∀ a, (a < 1)%nat → hp' !! a = [[sample_note; other_note]] !! a).
Proof.
  exact (sortNotesByUpdated_stable 0%nat [[sample_note; other_note]]
           [sample_note; other_note] eq_refl).
Defined.

(** ** Searching *)

Lemma or_str_empty s : or_str s "" = s.
Proof. unfold or_str. by case_bool_decide. Qed.

Lemma starts_with_spec q s :
  starts_with q s = true ↔ ∃ post, s = (q ++ post)%string.
Proof.
  revert s. induction q as [|a q IH]; intros s; simpl.
  - split; [|done]. intros _. by exists s.
  - destruct s as [|b s].
    + split; [done|]. by intros [post ?].
    + rewrite andb_true_iff, bool_decide_eq_true, IH. split.
      * intros [-> [post ->]]. by exists post.
      * intros [post [= -> ->]]. split; [done|]. by exists post.
Qed.

Lemma includes_spec s q :
  includes s q = true ↔ ∃ pre post, s = (pre ++ q ++ post)%string.
Proof.
  induction s as [|c s IH]; simpl.
  - rewrite orb_false_r, starts_with_spec. split.
    + intros [post ->]. by exists EmptyString, post.
    + intros ([|??] & post & H); [|done]. by exists post.
  - rewrite orb_true_iff, starts_with_spec, IH. split.
    + intros [[post ->]|(pre & post & ->)].
      * by exists EmptyString, post.
      * by exists (String c pre), post.
    + intros ([|c' pre] & post & H); simpl in H.
      * left. by exists post.
      * right. injection H as -> ->. by exists pre, post.
Qed.

(** The letter table, line by line: the first character is a capital
    letter, the second its small letter; [small_letter] maps both to the
    small letter. *)
Lemma letters_lowered :
  Forall (λ p : ascii * ascii,
            small_of p.1 p.2 ∧ small_letter p.1 = p.2 ∧ small_letter p.2 = p.2) letters.
Proof. apply (bool_decide_eq_true_1 _). vm_compute. reflexivity. Qed.

(** Every capital letter has its line in the table. *)
Lemma letters_complete :
  Forall (λ k, (ascii_of_nat k, ascii_of_nat (k + 32)) ∈ letters) (seq 65 26).
Proof. apply (bool_decide_eq_true_1 _). vm_compute. reflexivity. Qed.

Lemma elem_of_letters a b : (a, b) ∈ letters ↔ small_of a b.
Proof.
  split.
  - intros H. pose proof letters_lowered as Hall.
    rewrite Forall_forall in Hall. exact (proj1 (Hall _ H)).
  - intros [Ha Hb]. pose proof letters_complete as Hall.
    rewrite Forall_forall in Hall.
    specialize (Hall (nat_of_ascii a)). rewrite <- Hb, !ascii_nat_embedding in Hall.
    apply Hall, elem_of_seq. unfold capital in Ha. lia.
Qed.

Lemma small_letter_capital a b :
  small_of a b → small_letter a = b ∧ small_letter b = b.
Proof.
  intros H%elem_of_letters. pose proof letters_lowered as Hall.
  rewrite Forall_forall in Hall. exact (proj2 (Hall _ H)).
Qed.

(** What [small_letter] answers: the character itself, or its small
    letter. *)
Lemma small_letter_cases a :
  small_letter a = a ∨ small_of a (small_letter a).
Proof.
  unfold small_letter.
  destruct (find _ letters) as [[k v]|] eqn:Hf; [|by left].
  right. apply find_Some_findIndex in Hf as (idx & _ & Hin & Hk).
  apply bool_decide_eq_true in Hk. simpl in Hk. subst k.
  by apply list_elem_of_lookup_2, elem_of_letters in Hin.
Qed.

Lemma small_of_capital a b c : small_of a c → small_of b c → a = b.
Proof.
  intros [_ Ha] [_ Hb].
  rewrite <- (ascii_nat_embedding a), <- (ascii_nat_embedding b). f_equal. lia.
Qed.

(** Two characters have the same small letter exactly when they are the same
    letter. *)
Lemma small_letter_same a b : small_letter a = small_letter b ↔ same_letter a b.
Proof.
  unfold same_letter. split.
  - intros Hab.
    destruct (small_letter_cases a) as [Ha|Ha], (small_letter_cases b) as [Hb|Hb].
    + left. congruence.
    + right. right. by rewrite <- Hab, Ha in Hb.
    + right. left. by rewrite Hab, Hb in Ha.
    + left. rewrite Hab in Ha. exact (small_of_capital _ _ _ Ha Hb).
  - intros [->|[H|H]]; [done| |];
      apply small_letter_capital in H as [H1 H2]; congruence.
Qed.

Lemma ascii_lower_app a b :
  ascii_lower (a ++ b) = (ascii_lower a ++ ascii_lower b)%string.
Proof. induction a as [|c a IH]; simpl; [done|]. by rewrite IH. Qed.

Lemma ascii_lower_split s x y :
  ascii_lower s = (x ++ y)%string →
  ∃ a b, s = (a ++ b)%string ∧ ascii_lower a = x ∧ ascii_lower b = y.
Proof.
  revert s. induction x as [|c x IH]; intros s; simpl.
  - intros H. by exists EmptyString, s.
  - destruct s as [|d s]; simpl; [done|]. intros [= Hc H].
    destruct (IH s H) as (a & b & -> & Ha & Hb).
    exists (String d a), b. simpl. by rewrite Hc, Ha.
Qed.

Lemma caseless_lower a b : caseless a b ↔ ascii_lower a = ascii_lower b.
Proof.
  split.
  - induction 1 as [|c d s t Hcd _ IH]; simpl; [done|].
    apply small_letter_same in Hcd. by rewrite Hcd, IH.
  - revert b. induction a as [|c a IH]; intros [|d b]; simpl; try done.
    + intros _. constructor.
    + intros [= Hcd H]. constructor; [by apply small_letter_same|]. by apply IH.
Qed.

Lemma includes_lower s q :
  includes (ascii_lower s) (ascii_lower q) = true ↔ ci_substring q s.
Proof.
  rewrite includes_spec. unfold ci_substring. split.
  - intros (pre' & post' & H).
    apply ascii_lower_split in H as (pre & rest & -> & _ & H).
    apply ascii_lower_split in H as (mid & post & -> & Hmid & _).
    exists pre, mid, post. split; [done|]. by apply caseless_lower.
  - intros (pre & mid & post & -> & Hmid%caseless_lower).
    exists (ascii_lower pre), (ascii_lower post).
    by rewrite !ascii_lower_app, Hmid.
Qed.

Lemma lowers_ascii_ascii_lower : lowers_ascii ascii_lower.
Proof. by intros s _. Qed.

(** The predicate of the [filter] call, whatever [toLowerCase] is. *)
Lemma matches_occurs toLowerCase q n :
  matches toLowerCase q n = true
  ↔ occurs q (toLowerCase (title n)) ∨ occurs q (toLowerCase (content n)).
Proof.
  unfold matches, occurs. by rewrite orb_true_iff, !or_str_empty, !includes_spec.
Qed.

(** The predicate of the [filter] call on text of the ASCII range. *)
Lemma matches_ascii toLowerCase q n :
  lowers_ascii toLowerCase →
  ascii_text q = true → ascii_text (title n) = true → ascii_text (content n) = true →
  matches toLowerCase (toLowerCase q) n = true
  ↔ ci_substring q (title n) ∨ ci_substring q (content n).
Proof.
  intros Hlc Hq Ht Hc. unfold matches.
  by rewrite !or_str_empty, !Hlc, orb_true_iff, !includes_lower.
Qed.



(** ** Opening the storage *)

(** Without IndexedDB, a stored text that [!raw] does not reject (be it the
    text of an empty array, or no JSON at all) is left as it is. *)
Lemma initStorage_ls_keeps h w :
  idb_supported h = false →
  raw_falsy (ls (store w) !! notes_key) = false →
  initStorage h w = (Ok (LocalStorage notes_key), w).
Proof.
  intros Hs Hraw. unfold initStorage. unfold bind at 1, ask at 1. rewrite Hs.
  run_m. destruct (ls_get_ok h); simpl; [|done]. by rewrite Hraw.
Qed.

(** Without IndexedDB, a missing key or an empty text is replaced by the
    text of a one-element array. *)
Lemma initStorage_ls_seeds h w :
  idb_supported h = false →
  ls_get_ok h = true → ls_set_ok h = true →
  raw_falsy (ls (store w) !! notes_key) = true →
  ∃ sample w',
    initStorage h w = (Ok (LocalStorage notes_key), w')
    ∧ collection (LocalStorage notes_key) (store w') = [sample]
    ∧ title sample = "Welcome to Notes".
Proof.
  intros Hs Hg Hset Hraw. unfold initStorage. unfold bind at 1, ask at 1. rewrite Hs.
  run_m. rewrite Hg. simpl. rewrite Hraw. unfold seedSample. run_m.
  rewrite Hset. simpl. eexists _, _. split; [reflexivity|]. simpl.
  rewrite lookup_insert_eq. simpl. done.
Qed.

(** With IndexedDB, an object store without records gets one record. *)
Lemma initStorage_idb_seeds h w :
  idb_supported h = true → idb_open_ok h = true →
  idb_getAll_ok h = true → idb_put_ok h = true →
  idb (store w) = ∅ →
  ∃ sample w',
    initStorage h w = (Ok IndexedDB, w')
    ∧ collection IndexedDB (store w') = [sample]
    ∧ title sample = "Welcome to Notes".
Proof.
  intros Hs Ho Hg Hp He. unfold initStorage. unfold bind at 1, ask at 1. rewrite Hs.
  run_m. rewrite Ho. simpl. rewrite Hg. simpl. rewrite He.
  change (idb_records ∅) with (@nil Note). simpl. rewrite Hp. simpl.
  eexists _, _. split; [reflexivity|]. simpl. rewrite He.
  unfold idb_records. rewrite insert_empty, map_to_list_singleton. simpl.
  split; reflexivity.
Qed.

(** With IndexedDB, an object store that has a record is left as it is. *)
Lemma initStorage_idb_keeps h w :
  idb_supported h = true → idb_open_ok h = true → idb_getAll_ok h = true →
  idb (store w) ≠ ∅ →
  initStorage h w = (Ok IndexedDB, w).
Proof.
  intros Hs Ho Hg Hne. unfold initStorage. unfold bind at 1, ask at 1. rewrite Hs.
  run_m. rewrite Ho. simpl. rewrite Hg. simpl.
  rewrite bool_decide_eq_false_2; [done|].
  intros Hlen. apply Hne. apply map_to_list_empty_iff.
  apply length_zero_iff_nil in Hlen. unfold idb_records in Hlen.
  by apply fmap_nil_inv in Hlen.
Qed.

(** Whatever the host does, [initStorage] returns a context: the failures of
    both try blocks are caught. *)
Lemma initStorage_returns h w : ∃ ctx w', initStorage h w = (Ok ctx, w').
Proof.
  unfold initStorage. run_m.
  destruct (idb_supported h), (idb_open_ok h), (idb_getAll_ok h); simpl;
    try (destruct (bool_decide (length (idb_records (idb (store w))) = 0%nat));
         simpl; try destruct (idb_put_ok h); simpl);
    destruct (ls_get_ok h); simpl;
    try (destruct (raw_falsy (ls (store w) !! notes_key)); simpl;
         try destruct (ls_set_ok h); simpl);
    by eexists _, _.
Qed.

(** Once the collection of the returned context holds a note, [initStorage]
    writes nothing, in either variant and whatever the host does. *)
Lemma initStorage_never_reseeds h w ctx w' :
  initStorage h w = (Ok ctx, w') →
  collection ctx (store w) ≠ [] →
  store w' = store w.
Proof.
  unfold initStorage. run_m.
  destruct (idb_supported h), (idb_open_ok h), (idb_getAll_ok h); simpl;
    try (destruct (bool_decide (length (idb_records (idb (store w))) = 0%nat)) eqn:Hlen;
         simpl; try destruct (idb_put_ok h); simpl);
    destruct (ls_get_ok h); simpl;
    try (destruct (raw_falsy (ls (store w) !! notes_key)) eqn:Hraw; simpl;
         try destruct (ls_set_ok h); simpl);
    intros [= <- <-]; simpl; intros Hne; try done.
  all: try (apply bool_decide_eq_true, nil_length_inv in Hlen; done).
  all: destruct (ls (store w) !! notes_key) as [[]|]; done.
Qed.

(** C1, the failing input. IndexedDB is not available and localStorage holds
    the text of the empty array under the key (what [deleteNote] writes when
    the last note is removed), or a text that is not JSON. The collection is
    empty, [initStorage] returns the localStorage context and writes nothing:
    the collection is still empty. When the key is missing it does seed one
    note, and so it does on an object store without records when IndexedDB
    is available. *)
Theorem initStorage_leaves_emptied_store_empty :
  (collection ls_ctx (store emptied_world) = []
   ∧ initStorage no_idb_host emptied_world = (Ok ls_ctx, emptied_world))
  ∧ (collection ls_ctx (store garbled_world) = []
     ∧ initStorage no_idb_host garbled_world = (Ok ls_ctx, garbled_world))
  ∧ (collection ls_ctx (store empty_world) = []
     ∧ ∃ sample w',
         initStorage no_idb_host empty_world = (Ok ls_ctx, w')
         ∧ collection ls_ctx (store w') = [sample])
  ∧ (collection IndexedDB (store emptied_world) = []
     ∧ ∃ sample w',
         initStorage frozen_host emptied_world = (Ok IndexedDB, w')
         ∧ collection IndexedDB (store w') = [sample]).
Proof.
  split; [|split; [|split]].
  - split; [reflexivity|]. by apply initStorage_ls_keeps.
  - split; [reflexivity|]. by apply initStorage_ls_keeps.
  - split; [reflexivity|].
    destruct (initStorage_ls_seeds no_idb_host empty_world)
      as (sample & w' & H1 & H2 & _); try reflexivity.
    by exists sample, w'.
  - split; [reflexivity|].
    destruct (initStorage_idb_seeds frozen_host emptied_world)
      as (sample & w' & H1 & H2 & _); try reflexivity.
    by exists sample, w'.
Qed.

(** ** The end-to-end scenarios, run *)

(** Create a note, set its content to "hello": the list is that one note,
    updated after it was created. *)
Example create_update_list :
  let w1 := (createNote IndexedDB ticking_host empty_world).2 in
  let w2 := (updateNote IndexedDB (JStr "note_1000_k3x9ab") (content_only "hello")
               ticking_host w1).2 in
  (listNotes IndexedDB ticking_host w2).1
  = Ok [mkNote "note_1000_k3x9ab" "Untitled" "hello" 1001 1003].
Proof. vm_compute. reflexivity. Qed.

(** Of two notes, the one titled "Shopping list" is the result of filtering
    by "shop". *)
Example filter_shop :
  filterNotes ascii_lower 0%nat (JStr "shop")
    [[mkNote "a" "Shopping list" "" 1 1; mkNote "b" "Untitled" "" 2 2]]
  = (1%nat,
     [[mkNote "a" "Shopping list" "" 1 1; mkNote "b" "Untitled" "" 2 2];
      [mkNote "a" "Shopping list" "" 1 1]]).
Proof. vm_compute. reflexivity. Qed.

(** When opening the database fails, the localStorage context is returned
    and holds the sample note; the operations then work on it. *)
Example fallback_after_open_failure :
  let (r, w1) := initStorage open_fails_host empty_world in
  r = Ok ls_ctx
  ∧ title <$> collection ls_ctx (store w1) = ["Welcome to Notes"]
  ∧ title <$> collection ls_ctx (store (createNote ls_ctx open_fails_host w1).2)
    = ["Welcome to Notes"; "Untitled"].
Proof. vm_compute. by repeat split. Qed.

(** * Further properties of the storage functions *)

(** ** Reading *)

Lemma find_Some_elem {A} (p : A → bool) l x :
  find p l = Some x → x ∈ l ∧ p x = true.
Proof.
  induction l as [|y l IH]; simpl; [done|].
  destruct (p y) eqn:Hy.
  - intros [= <-]. split; [apply list_elem_of_here|done].
  - intros [? ?]%IH. split; [by apply list_elem_of_further|done].
Qed.

Lemma find_None_iff {A} (p : A → bool) l :
  find p l = None ↔ ∀ x, x ∈ l → p x = false.
Proof.
  induction l as [|y l IH]; simpl.
  - split; [|done]. intros _ x Hx. by apply elem_of_nil in Hx.
  - destruct (p y) eqn:Hy.
    + split; [done|]. intros H. specialize (H y (list_elem_of_here _ _)). congruence.
    + rewrite IH. split.
      * intros H x [->|Hx]%elem_of_cons; auto.
      * intros H x Hx. apply H. by apply list_elem_of_further.
Qed.

Lemma getNote_eq ctx i h w :
  falsy i = false →
  getNote ctx i h w
  = match ctx with
    | IndexedDB =>
        if idb_get_ok h
        then (Ok (note_of (str_of i) <$> idb (store w) !! str_of i), w)
        else (Rejected IDBRequestError, w)
    | LocalStorage key =>
        (Ok (find (id_is (str_of i))
               (if ls_get_ok h then ls_collection (ls (store w) !! key) else [])), w)
    end.
Proof.
  intros Hf. unfold getNote. rewrite Hf. destruct ctx as [|key].
  - run_m. by destruct (idb_get_ok h).
  - unfold bind. by rewrite readLS_eq.
Qed.

Lemma getNote_lookup ctx i h w :
  i ≠ "" → reads_ok ctx h = true →
  getNote ctx (JStr i) h w = (Ok (lookup_note ctx (store w) i), w).
Proof.
  intros Hi Hr. rewrite getNote_eq by by apply falsy_JStr.
  destruct ctx as [|key]; simpl in *.
  - apply andb_prop in Hr as [_ ->]. done.
  - by rewrite Hr.
Qed.

Lemma lookup_note_Some ctx s i n :
  lookup_note ctx s i = Some n → n ∈ collection ctx s ∧ id n = i.
Proof.
  destruct ctx as [|key]; simpl.
  - destruct (idb s !! i) as [r|] eqn:Hr; simpl; [|done]. intros [= <-].
    split; [|done]. apply elem_of_idb_records. simpl. by rewrite rest_of_note_of.
  - intros [Hn Hid]%find_Some_elem. split; [done|].
    by apply bool_decide_eq_true in Hid.
Qed.

Lemma lookup_note_None ctx s i :
  lookup_note ctx s i = None ↔ ¬ present ctx s i.
Proof.
  destruct ctx as [|key].
  - rewrite present_idb. simpl. rewrite fmap_None. apply eq_None_not_Some.
  - simpl. rewrite find_None_iff. unfold present. simpl. split.
    + intros H (n & Hn & Hid). specialize (H n Hn).
      apply bool_decide_eq_false in H. done.
    + intros H n Hn. apply bool_decide_eq_false. intros Hid. apply H. by exists n.
Qed.

(** X1. When the read request succeeds, [listNotes] returns the stored
    collection rearranged newest first: a permutation of the collection,
    non-increasing in [updatedAt], in which the notes of any one [updatedAt]
    value keep the order the backend listed them in; the world is as
    before. *)
Theorem listNotes_newest_first ctx h w :
  reads_ok ctx h = true →
  ∃ l,
    listNotes ctx h w = (Ok l, w)
    ∧ l ≡ₚ collection ctx (store w)
    ∧ newest_first l
    ∧ ∀ t, stamped t l = stamped t (collection ctx (store w)).
Proof.
  intros Hr. eexists. rewrite listNotes_eq by done. split; [reflexivity|].
  split; [apply Array_sort_perm|].
  split; [apply Array_sort_newest_first|].
  intros t. apply Array_sort_stamped.
Qed.

Lemma listNotes_newest_first_witness :
  ∃ l,
    listNotes ls_ctx ticking_host (world_with [sample_note; other_note]) = (Ok l, world_with [sample_note; other_note])
    ∧ l ≡ₚ collection ls_ctx (store (world_with [sample_note; other_note]))
    ∧ newest_first l
    ∧ ∀ t, stamped t l
           = stamped t (collection ls_ctx (store (world_with [sample_note; other_note]))).
Proof.
  exact (listNotes_newest_first ls_ctx ticking_host
           (world_with [sample_note; other_note]) eq_refl).
Defined.

(** X2. [getNote] and [listNotes] only read: whatever the arguments and
    whatever the host does with the requests (also when the promise is
    rejected), the world after the call is the world before it. *)
Theorem reads_never_write ctx i h w :
  (getNote ctx i h w).2 = w ∧ (listNotes ctx h w).2 = w.
Proof.
  split.
  - destruct (falsy i) eqn:Hf.
    { unfold getNote. by rewrite Hf. }
    rewrite getNote_eq by done. destruct ctx; [|done].
    by destruct (idb_get_ok h).
  - destruct ctx as [|key]; simpl.
    + run_m. by destruct (idb_getAll_ok h).
    + unfold bind. by rewrite readLS_eq.
Qed.

(** What [find] returns is the first element that satisfies the
    predicate. *)
Lemma find_first {A} (p : A → bool) l x :
  find p l = Some x →
  ∃ idx, l !! idx = Some x
         ∧ ∀ j y, (j < idx)%nat → l !! j = Some y → p y = false.
Proof.
  induction l as [|z l IH]; simpl; [done|].
  destruct (p z) eqn:Hz.
  - intros [= <-]. exists 0%nat. split; [done|]. intros j y Hj. lia.
  - intros H. destruct (IH H) as (idx & Hidx & Hbefore).
    exists (S idx). split; [done|].
    intros [|j] y Hj Hy; simpl in Hy.
    + by injection Hy as <-.
    + apply (Hbefore j); [lia|done].
Qed.

(** X3. When the read request succeeds, [getNote] of a non-empty id returns
    a stored note that has this id, and returns [null] exactly when no stored
    note has the id. Under localStorage the note returned is the first
    element of the stored array that has the id: it stands at some index, and
    no element before that index has the id. *)
Theorem getNote_finds ctx i h w :
  i ≠ "" →
  reads_ok ctx h = true →
  ∃ r,
    getNote ctx (JStr i) h w = (Ok r, w)
    ∧ (∀ n, r = Some n → n ∈ collection ctx (store w) ∧ id n = i)
    ∧ (r = None ↔ ¬ present ctx (store w) i)
    ∧ (∀ key n, ctx = LocalStorage key → r = Some n →
         ∃ idx, ls_collection (ls (store w) !! key) !! idx = Some n
                ∧ ∀ j m, (j < idx)%nat →
                         ls_collection (ls (store w) !! key) !! j = Some m →
                         id m ≠ i).
Proof.
  intros Hi Hr. exists (lookup_note ctx (store w) i).
  split; [by apply getNote_lookup|].
  split; [intros n; apply lookup_note_Some|].
  split; [apply lookup_note_None|].
  intros key n -> Hn. simpl in Hn.
  apply find_first in Hn as (idx & Hidx & Hbefore).
  exists idx. split; [done|].
  intros j m Hj Hm Hid. specialize (Hbefore j m Hj Hm).
  unfold id_is in Hbefore. by apply bool_decide_eq_false in Hbefore.
Qed.

Lemma getNote_finds_witness :
  ∃ r,
    getNote ls_ctx (JStr "n1") ticking_host
      (world_with [other_note; sample_note; mkNote "n1" "Second" "Eggs" 12 40])
    = (Ok r, world_with [other_note; sample_note; mkNote "n1" "Second" "Eggs" 12 40])
    ∧ (∀ n, r = Some n → n ∈ [other_note; sample_note; mkNote "n1" "Second" "Eggs" 12 40]
                         ∧ id n = "n1")
    ∧ (∀ n, r = Some n →
         ∃ idx, [other_note; sample_note; mkNote "n1" "Second" "Eggs" 12 40] !! idx = Some n
                ∧ ∀ j m, (j < idx)%nat →
                         [other_note; sample_note; mkNote "n1" "Second" "Eggs" 12 40] !! j
                         = Some m →
                         id m ≠ "n1").
Proof.
  destruct (getNote_finds ls_ctx "n1" ticking_host
              (world_with [other_note; sample_note; mkNote "n1" "Second" "Eggs" 12 40])
              ltac:(discriminate) eq_refl)
    as (r & Hrun & Hfound & _ & Hfirst).
  exists r. split; [exact Hrun|]. split; [exact Hfound|].
  intros n Hn. exact (Hfirst notes_key n eq_refl Hn).
Defined.

(** ** Creating *)

Lemma next_id_nonempty h w : next_id h w ≠ "".
Proof. unfold next_id. simpl. discriminate. Qed.

Lemma find_app_last (i : string) (items : list Note) n :
  (∀ m, m ∈ items → id m ≠ i) → id n = i →
  find (id_is i) (items ++ [n]) = Some n.
Proof.
  intros Hfresh Hid. induction items as [|m items IH]; simpl.
  - unfold id_is. by rewrite bool_decide_eq_true_2.
  - unfold id_is at 1. rewrite bool_decide_eq_false_2.
    + apply IH. intros m' Hm'. apply Hfresh. by apply list_elem_of_further.
    + apply Hfresh, list_elem_of_here.
Qed.

Lemma idb_records_insert_fresh m k r :
  m !! k = None → idb_records (<[k := r]> m) ≡ₚ note_of k r :: idb_records m.
Proof.
  intros Hk. unfold idb_records. by rewrite map_to_list_insert.
Qed.

(** The world [createNote] leaves when the requests succeed. *)
Lemma createNote_ok_eq ctx h w :
  reads_ok ctx h = true → writes_ok ctx h = true →
  createNote ctx h w
  = (Ok (new_note h w),
     match ctx with
     | IndexedDB =>
         mkWorld (mkStore (<[next_id h w := rest_of (new_note h w)]> (idb (store w)))
                    (ls (store w))) (S (S (S (ticks w))))
     | LocalStorage key =>
         mkWorld (mkStore (idb (store w))
                    (<[key := RawArray (ls_collection (ls (store w) !! key) ++ [new_note h w])]>
                       (ls (store w)))) (S (S (S (ticks w))))
     end).
Proof.
  intros Hr Hw. destruct ctx as [|key]; simpl in Hr, Hw.
  - apply andb_prop in Hw as [Hp _]. by rewrite createNote_idb_eq, Hp.
  - by rewrite createNote_ls_eq, Hr, Hw.
Qed.

(** X4. When the requests succeed, the note [createNote] returns is the note
    [getNote] returns for its id right afterwards. Under localStorage this
    supposes that no stored note had the id already ([getNote] returns the
    first element with the id, [createNote] appends); under IndexedDB nothing
    is supposed, the record under the id is overwritten. *)
Theorem createNote_then_getNote ctx h h' w :
  reads_ok ctx h = true → writes_ok ctx h = true →
  reads_ok ctx h' = true →
  (ctx ≠ IndexedDB → ¬ present ctx (store w) (next_id h w)) →
  ∃ n w',
    createNote ctx h w = (Ok n, w')
    ∧ getNote ctx (JStr (id n)) h' w' = (Ok (Some n), w').
Proof.
  intros Hr Hw Hr' Hfresh. eexists _, _.
  rewrite createNote_ok_eq by done. split; [reflexivity|].
  rewrite getNote_lookup by (done || apply next_id_nonempty). f_equal. f_equal.
  destruct ctx as [|key]; simpl.
  - rewrite lookup_insert_eq. reflexivity.
  - rewrite lookup_insert_eq. simpl. apply find_app_last; [|done].
    intros m Hm Hid. apply Hfresh; [done|]. by exists m.
Qed.

Lemma createNote_then_getNote_witness :
  ∃ n w',
    createNote IndexedDB ticking_host (world_with [sample_note]) = (Ok n, w')
    ∧ getNote IndexedDB (JStr (id n)) frozen_host w' = (Ok (Some n), w').
Proof.
  refine (createNote_then_getNote IndexedDB ticking_host frozen_host
            (world_with [sample_note]) eq_refl eq_refl eq_refl _).
  intros H. by destruct H.
Defined.

(** X5. When the requests succeed and no stored note has the id drawn,
    [createNote] adds the returned note to the collection and nothing else:
    the collection afterwards is a permutation of the new note and the old
    collection (one note more). Under localStorage the note is appended at the
    end of the stored array; a stored text that is not an array counts as
    empty and is replaced. *)
Theorem createNote_adds_one ctx h w :
  reads_ok ctx h = true → writes_ok ctx h = true →
  ¬ present ctx (store w) (next_id h w) →
  ∃ n w',
    createNote ctx h w = (Ok n, w')
    ∧ collection ctx (store w') ≡ₚ n :: collection ctx (store w)
    ∧ length (collection ctx (store w')) = S (length (collection ctx (store w)))
    ∧ match ctx with
      | IndexedDB => ls (store w') = ls (store w)
      | LocalStorage _ =>
          collection ctx (store w') = (collection ctx (store w) ++ [n])%list
          ∧ idb (store w') = idb (store w)
      end.
Proof.
  intros Hr Hw Hfresh. eexists _, _.
  rewrite createNote_ok_eq by done. split; [reflexivity|].
  assert (collection ctx (store
            match ctx with
            | IndexedDB =>
                mkWorld (mkStore (<[next_id h w := rest_of (new_note h w)]> (idb (store w)))
                           (ls (store w))) (S (S (S (ticks w))))
            | LocalStorage key =>
                mkWorld (mkStore (idb (store w))
                           (<[key := RawArray (ls_collection (ls (store w) !! key)
                                               ++ [new_note h w])]>
                              (ls (store w)))) (S (S (S (ticks w))))
            end) ≡ₚ new_note h w :: collection ctx (store w)) as Hperm.
  { destruct ctx as [|key]; simpl.
    - rewrite present_idb in Hfresh. apply eq_None_not_Some in Hfresh.
      by rewrite idb_records_insert_fresh.
    - rewrite lookup_insert_eq. simpl. by rewrite Permutation_app_comm. }
  split; [done|]. split; [by rewrite Hperm|].
  destruct ctx as [|key]; simpl; [done|].
  by rewrite lookup_insert_eq.
Qed.

Lemma createNote_adds_one_witness :
  ∃ n w',
    createNote ls_ctx ticking_host (world_with [sample_note]) = (Ok n, w')
    ∧ collection ls_ctx (store w') ≡ₚ n :: collection ls_ctx (store (world_with [sample_note]))
    ∧ length (collection ls_ctx (store w'))
      = S (length (collection ls_ctx (store (world_with [sample_note]))))
    ∧ (collection ls_ctx (store w')
       = (collection ls_ctx (store (world_with [sample_note])) ++ [n])%list
       ∧ idb (store w') = idb (store (world_with [sample_note]))).
Proof.
  refine (createNote_adds_one ls_ctx ticking_host (world_with [sample_note])
            eq_refl eq_refl _).
  intros (n & Hn & Hid). vm_compute in Hn.
  apply list_elem_of_In in Hn. destruct Hn as [<-|[]]. discriminate Hid.
Defined.

(** ** Updating *)

Lemma note_of_rest_of_id n k : id n = k → note_of k (rest_of n) = n.
Proof. intros <-. apply note_of_rest_of. Qed.

(** What [updateNote] returns and stores for a stored, non-empty id when
    the requests succeed. *)
Lemma updateNote_ok_eq ctx i updates h w n :
  i ≠ "" →
  reads_ok ctx h = true → writes_ok ctx h = true →
  lookup_note ctx (store w) i = Some n →
  ∃ w',
    updateNote ctx (JStr i) updates h w
    = (Ok (Some (spread_update n updates (now_at h (ticks w)))), w')
    ∧ match ctx with
      | IndexedDB =>
          idb (store w')
          = <[id (spread_update n updates (now_at h (ticks w)))
              := rest_of (spread_update n updates (now_at h (ticks w)))]> (idb (store w))
          ∧ ls (store w') = ls (store w)
      | LocalStorage key =>
          ∃ idx,
            findIndex (id_is i) (ls_collection (ls (store w) !! key)) = Some idx
            ∧ ls_collection (ls (store w) !! key) !! idx = Some n
            ∧ ls (store w')
              = <[key := RawArray (<[idx := spread_update n updates (now_at h (ticks w))]>
                                     (ls_collection (ls (store w) !! key)))]> (ls (store w))
            ∧ idb (store w') = idb (store w)
      end.
Proof.
  intros Hi Hr Hw Hn. destruct ctx as [|key]; simpl in Hr, Hw, Hn.
  - apply andb_prop in Hr as [_ Hg]. apply andb_prop in Hw as [Hp _].
    destruct (idb (store w) !! i) as [r|] eqn:Hlk; simpl in Hn; [|done].
    injection Hn as <-. eexists.
    rewrite updateNote_idb_eq by by apply falsy_JStr.
    simpl str_of. rewrite Hg, Hlk. simpl. rewrite Hp. done.
  - destruct (find_Some_findIndex _ _ _ Hn) as (idx & Hidx & Hlk & _).
    eexists. rewrite updateNote_ls_eq by by apply falsy_JStr.
    simpl str_of. rewrite Hr. simpl. rewrite Hidx, Hlk, Hw.
    split; [reflexivity|]. by exists idx.
Qed.

(** X6. When the requests succeed and the updates do not carry an [id],
    [updateNote] of a stored, non-empty id returns the found note with every
    supplied field overwritten and [updatedAt] set to the clock reading (a
    supplied [updatedAt] is discarded), stores it in the place of the found
    note, and [getNote] of the id returns it right afterwards. *)
Theorem updateNote_then_getNote ctx i updates h h' w n :
  i ≠ "" →
  reads_ok ctx h = true → writes_ok ctx h = true →
  reads_ok ctx h' = true →
  u_id updates = None →
  lookup_note ctx (store w) i = Some n →
  ∃ next w',
    updateNote ctx (JStr i) updates h w = (Ok (Some next), w')
    ∧ next = mkNote i (default (title n) (u_title updates))
               (default (content n) (u_content updates))
               (default (createdAt n) (u_createdAt updates))
               (now_at h (ticks w))
    ∧ replaced ctx (store w) (store w') i n next
    ∧ getNote ctx (JStr i) h' w' = (Ok (Some next), w').
Proof.
  intros Hi Hr Hw Hr' Hu Hn.
  destruct (lookup_note_Some _ _ _ _ Hn) as [_ Hid].
  destruct (updateNote_ok_eq ctx i updates h w n Hi Hr Hw Hn) as (w' & E & Hst).
  exists (spread_update n updates (now_at h (ticks w))), w'.
  assert (id (spread_update n updates (now_at h (ticks w))) = i) as Hnext.
  { unfold spread_update. simpl. by rewrite Hu. }
  split; [done|]. split.
  { unfold spread_update. by rewrite Hu, <- Hid. }
  rewrite getNote_lookup by done.
  rewrite Hnext in Hst. destruct ctx as [|key]; simpl in Hst |- *.
  - destruct Hst as [Hidb Hls]. split; [done|].
    rewrite Hidb, lookup_insert_eq. cbn [fmap option_fmap option_map].
    by rewrite (note_of_rest_of_id _ _ Hnext).
  - destruct Hst as (idx & Hidx & Hlk & Hls & Hidb). split; [by exists idx|].
    rewrite Hls, lookup_insert_eq. simpl. f_equal. f_equal.
    by apply (find_insert_found _ _ _ n).
Qed.

Lemma updateNote_then_getNote_witness :
  ∃ next w',
    updateNote IndexedDB (JStr "n1") (content_only "Eggs") ticking_host
      (world_with [sample_note; other_note]) = (Ok (Some next), w')
    ∧ next = mkNote "n1" "Shopping list" "Eggs" 10 1000
    ∧ replaced IndexedDB (store (world_with [sample_note; other_note])) (store w')
        "n1" sample_note next
    ∧ getNote IndexedDB (JStr "n1") ticking_host w' = (Ok (Some next), w').
Proof.
  refine (updateNote_then_getNote IndexedDB "n1" (content_only "Eggs") ticking_host
            ticking_host (world_with [sample_note; other_note]) sample_note
            _ eq_refl eq_refl eq_refl eq_refl _).
  - discriminate.
  - vm_compute. reflexivity.
Defined.



(** ** Deleting, again *)

Lemma deleteNote_ok_eq ctx i h w :
  i ≠ "" →
  reads_ok ctx h = true → writes_ok ctx h = true →
  deleteNote ctx (JStr i) h w
  = (Ok tt,
     match ctx with
     | IndexedDB =>
         mkWorld (mkStore (delete i (idb (store w))) (ls (store w))) (ticks w)
     | LocalStorage key =>
         mkWorld (mkStore (idb (store w))
                    (<[key := RawArray (List.filter (λ n, negb (id_is i n))
                                          (ls_collection (ls (store w) !! key)))]>
                       (ls (store w)))) (ticks w)
     end).
Proof.
  intros Hi Hr Hw. destruct ctx as [|key]; simpl in Hr, Hw.
  - apply andb_prop in Hw as [_ Hd].
    rewrite deleteNote_idb_eq by by apply falsy_JStr. by rewrite Hd.
  - rewrite deleteNote_ls_eq by by apply falsy_JStr. by rewrite Hr, Hw.
Qed.

Lemma negb_id_is i n : negb (id_is i n) = true ↔ id n ≠ i.
Proof. unfold id_is. by rewrite negb_true_iff, bool_decide_eq_false. Qed.

(** X8. When the requests succeed, [deleteNote] of a non-empty id returns
    without error and removes every stored note that has the id and no other:
    the notes of the collection afterwards are the notes of the collection
    before whose id differs (under localStorage in their order, so all
    elements with the id go, not only the first), and no note is found under
    the id any more. The other backend is untouched. *)
Theorem deleteNote_removes ctx i h w :
  i ≠ "" →
  reads_ok ctx h = true → writes_ok ctx h = true →
  ∃ w',
    deleteNote ctx (JStr i) h w = (Ok tt, w')
    ∧ (∀ m, m ∈ collection ctx (store w') ↔ m ∈ collection ctx (store w) ∧ id m ≠ i)
    ∧ lookup_note ctx (store w') i = None
    ∧ match ctx with
      | IndexedDB =>
          idb (store w') = delete i (idb (store w)) ∧ ls (store w') = ls (store w)
      | LocalStorage _ =>
          collection ctx (store w')
          = List.filter (λ n, negb (id_is i n)) (collection ctx (store w))
          ∧ idb (store w') = idb (store w)
      end.
Proof.
  intros Hi Hr Hw. eexists. rewrite deleteNote_ok_eq by done.
  split; [reflexivity|].
  assert (∀ m, m ∈ collection ctx (store
            match ctx with
            | IndexedDB =>
                mkWorld (mkStore (delete i (idb (store w))) (ls (store w))) (ticks w)
            | LocalStorage key =>
                mkWorld (mkStore (idb (store w))
                           (<[key := RawArray (List.filter (λ n, negb (id_is i n))
                                                 (ls_collection (ls (store w) !! key)))]>
                              (ls (store w)))) (ticks w)
            end) ↔ m ∈ collection ctx (store w) ∧ id m ≠ i) as Hmem.
  { intros m. destruct ctx as [|key]; simpl.
    - rewrite !elem_of_idb_records, lookup_delete_Some.
      split; intros [? ?]; split; congruence.
    - rewrite lookup_insert_eq. simpl. by rewrite elem_of_filter_list, negb_id_is. }
  split; [done|]. split.
  - apply lookup_note_None. intros (m & Hm & Hid). apply Hmem in Hm as [_ Hne]. done.
  - destruct ctx as [|key]; simpl; [done|]. by rewrite lookup_insert_eq.
Qed.

Lemma deleteNote_removes_witness :
  ∃ w',
    deleteNote ls_ctx (JStr "n1") ticking_host (world_with [sample_note; other_note])
    = (Ok tt, w')
    ∧ (∀ m, m ∈ collection ls_ctx (store w')
            ↔ m ∈ collection ls_ctx (store (world_with [sample_note; other_note]))
              ∧ id m ≠ "n1")
    ∧ lookup_note ls_ctx (store w') "n1" = None
    ∧ (collection ls_ctx (store w')
       = List.filter (λ n, negb (id_is "n1" n))
           (collection ls_ctx (store (world_with [sample_note; other_note])))
       ∧ idb (store w') = idb (store (world_with [sample_note; other_note]))).
Proof.
  refine (deleteNote_removes ls_ctx "n1" ticking_host
            (world_with [sample_note; other_note]) _ eq_refl eq_refl).
  discriminate.
Defined.

(** X9. Creating a note and then deleting it gives back the collection:
    when the requests succeed and no stored note had the id drawn, the
    collection after [createNote] followed by [deleteNote] of the returned
    note's id is the collection before, element for element. *)
Theorem createNote_then_deleteNote ctx h h' w :
  reads_ok ctx h = true → writes_ok ctx h = true →
  reads_ok ctx h' = true → writes_ok ctx h' = true →
  ¬ present ctx (store w) (next_id h w) →
  ∃ n w' w'',
    createNote ctx h w = (Ok n, w')
    ∧ deleteNote ctx (JStr (id n)) h' w' = (Ok tt, w'')
    ∧ collection ctx (store w'') = collection ctx (store w).
Proof.
  intros Hr Hw Hr' Hw' Hfresh. eexists _, _, _.
  rewrite createNote_ok_eq by done. split; [reflexivity|].
  rewrite deleteNote_ok_eq by (done || apply next_id_nonempty).
  split; [reflexivity|].
  destruct ctx as [|key]; simpl.
  - rewrite present_idb in Hfresh. apply eq_None_not_Some in Hfresh.
    by rewrite delete_insert_eq, delete_id.
  - rewrite !lookup_insert_eq. simpl. rewrite List.filter_app. simpl.
    unfold id_is at 2. simpl. rewrite bool_decide_eq_true_2 by done. simpl.
    rewrite app_nil_r. apply filter_id_absent.
    intros m Hm Hid. apply Hfresh. by exists m.
Qed.

Lemma createNote_then_deleteNote_witness :
  ∃ n w' w'',
    createNote IndexedDB ticking_host (world_with [sample_note]) = (Ok n, w')
    ∧ deleteNote IndexedDB (JStr (id n)) ticking_host w' = (Ok tt, w'')
    ∧ collection IndexedDB (store w'')
      = collection IndexedDB (store (world_with [sample_note])).
Proof.
  refine (createNote_then_deleteNote IndexedDB ticking_host ticking_host
            (world_with [sample_note]) eq_refl eq_refl eq_refl eq_refl _).
  rewrite present_idb. vm_compute. intros [r Hr]. discriminate Hr.
Defined.

(** ** Opening the storage, again *)

Lemma idb_records_nil m : idb_records m = [] ↔ m = ∅.
Proof.
  unfold idb_records. split.
  - intros H%fmap_nil_inv. by apply map_to_list_empty_iff.
  - intros ->. by rewrite map_to_list_empty.
Qed.

Lemma idb_empty_length m :
  bool_decide (length (idb_records m) = 0%nat) = true ↔ m = ∅.
Proof.
  rewrite bool_decide_eq_true, <- idb_records_nil. split.
  - apply nil_length_inv.
  - by intros ->.
Qed.

(** X10. [initStorage] never fails, and it chooses the variant like this:
    it returns the IndexedDB context exactly when [indexedDB] is in the
    window, the database opens, [getAll] succeeds and, if the object store
    has no record, the [put] of the sample succeeds; in every other case it
    returns the localStorage context with the key ['notes_db__notes'], and
    has then left the object store as it was. When it returns the IndexedDB
    context it has left localStorage as it was. *)
Theorem initStorage_chooses h w :
  ∃ ctx w',
    initStorage h w = (Ok ctx, w')
    ∧ (ctx = IndexedDB
       ↔ idb_supported h = true ∧ idb_open_ok h = true ∧ idb_getAll_ok h = true
         ∧ (idb (store w) ≠ ∅ ∨ idb_put_ok h = true))
    ∧ (ctx ≠ IndexedDB → ctx = LocalStorage notes_key ∧ idb (store w') = idb (store w))
    ∧ (ctx = IndexedDB → ls (store w') = ls (store w)).
Proof.
  unfold initStorage. run_m.
  destruct (idb_supported h), (idb_open_ok h), (idb_getAll_ok h); simpl;
    try (destruct (bool_decide (length (idb_records (idb (store w))) = 0%nat)) eqn:Hlen;
         simpl; try destruct (idb_put_ok h); simpl);
    destruct (ls_get_ok h); simpl;
    try (destruct (raw_falsy (ls (store w) !! notes_key)); simpl;
         try destruct (ls_set_ok h); simpl);
    eexists _, _; (split; [reflexivity|]); simpl;
    (split; [|split; [intros; try done|intros; try done]]).
  all: try (split; [done|intros (? & ? & ? & ?); done]).
  all: try apply idb_empty_length in Hlen.
  all: try (apply bool_decide_eq_false in Hlen;
            assert (idb (store w) ≠ ∅)
              by (intros He; apply Hlen; by rewrite He)).
  all: try (split; [intros _; repeat split; auto|done]).
  all: split; [done|intros (_ & _ & _ & [?|?]); done].
Qed.

(** X11. Opening twice changes nothing the second time: on hosts where
    every request succeeds (and [indexedDB] is in the window of both or of
    neither), a second [initStorage] returns the context the first returned
    and leaves the stored data as the first left them. *)
Theorem initStorage_twice h1 h2 w :
  all_ok h1 → all_ok h2 →
  idb_supported h1 = idb_supported h2 →
  ∃ ctx w1 w2,
    initStorage h1 w = (Ok ctx, w1)
    ∧ initStorage h2 w1 = (Ok ctx, w2)
    ∧ store w2 = store w1.
Proof.
  intros (Ho1 & Hg1 & _ & Hp1 & _ & Hlg1 & Hls1) (Ho2 & Hg2 & _ & Hp2 & _ & Hlg2 & Hls2) Hs.
  destruct (idb_supported h1) eqn:Hs1; symmetry in Hs.
  - destruct (decide (idb (store w) = ∅)) as [He|Hne].
    + destruct (initStorage_idb_seeds h1 w Hs1 Ho1 Hg1 Hp1 He) as (sample & w1 & E1 & Hc & _).
      exists IndexedDB, w1, w1. split; [done|]. split; [|done].
      apply initStorage_idb_keeps; try done.
      intros He1%idb_records_nil. simpl in Hc. by rewrite He1 in Hc.
    + exists IndexedDB, w, w. split; [by apply initStorage_idb_keeps|].
      split; [by apply initStorage_idb_keeps|done].
  - destruct (raw_falsy (ls (store w) !! notes_key)) eqn:Hraw.
    + destruct (initStorage_ls_seeds h1 w Hs1 Hlg1 Hls1 Hraw) as (sample & w1 & E1 & Hc & _).
      exists (LocalStorage notes_key), w1, w1. split; [done|]. split; [|done].
      apply initStorage_ls_keeps; [done|]. simpl in Hc.
      by destruct (ls (store w1) !! notes_key) as [[]|].
    + exists (LocalStorage notes_key), w, w. split; [by apply initStorage_ls_keeps|].
      split; [by apply initStorage_ls_keeps|done].
Qed.

Lemma all_ok_ticking : all_ok ticking_host.
Proof. by repeat split. Qed.

Lemma initStorage_twice_witness :
  ∃ ctx w1 w2,
    initStorage ticking_host empty_world = (Ok ctx, w1)
    ∧ initStorage ticking_host w1 = (Ok ctx, w2)
    ∧ store w2 = store w1.
Proof.
  exact (initStorage_twice ticking_host ticking_host empty_world
           all_ok_ticking all_ok_ticking eq_refl).
Defined.

(** ** Each variant keeps to its own data *)

(** X12. Whatever the host does, [createNote], [updateNote] and
    [deleteNote] under the IndexedDB context leave localStorage as it was,
    and under a localStorage context they leave the object store and every
    other localStorage key as they were. *)
Theorem variants_keep_apart ctx o h w :
  match ctx with
  | IndexedDB => ls (store (exec ctx o h w)) = ls (store w)
  | LocalStorage key =>
      idb (store (exec ctx o h w)) = idb (store w)
      ∧ ∀ k, k ≠ key → ls (store (exec ctx o h w)) !! k = ls (store w) !! k
  end.
Proof.
  destruct ctx as [|key], o as [|i updates|i]; simpl.
  - rewrite createNote_idb_eq. by destruct (idb_put_ok h).
  - destruct (falsy i) eqn:Hf; [unfold updateNote; by rewrite Hf|].
    rewrite updateNote_idb_eq by done. destruct (idb_get_ok h); [|done].
    destruct (idb (store w) !! str_of i); [|done]. simpl.
    by destruct (idb_put_ok h).
  - destruct (falsy i) eqn:Hf; [unfold deleteNote; by rewrite Hf|].
    rewrite deleteNote_idb_eq by done. by destruct (idb_delete_ok h).
  - rewrite createNote_ls_eq. destruct (ls_set_ok h); simpl; [|done].
    split; [done|]. intros k Hk. by rewrite lookup_insert_ne.
  - destruct (falsy i) eqn:Hf; [unfold updateNote; by rewrite Hf|].
    rewrite updateNote_ls_eq by done. simpl.
    destruct (findIndex _ _) as [idx|]; [|done].
    destruct (_ !! idx); [|done]. simpl.
    destruct (ls_set_ok h); simpl; [|done].
    split; [done|]. intros k Hk. by rewrite lookup_insert_ne.
  - destruct (falsy i) eqn:Hf; [unfold deleteNote; by rewrite Hf|].
    rewrite deleteNote_ls_eq by done. destruct (ls_set_ok h); simpl; [|done].
    split; [done|]. intros k Hk. by rewrite lookup_insert_ne.
Qed.

(** ** The two variants, side by side *)

Lemma note_eq_by_rest (n m : Note) : id n = id m → rest_of n = rest_of m → n = m.
Proof. destruct n, m. simpl. by intros -> [= -> -> -> ->]. Qed.

Lemma agree_lookup key s i :
  agree key s → lookup_note IndexedDB s i = lookup_note (LocalStorage key) s i.
Proof.
  intros [_ Hmem].
  destruct (lookup_note (LocalStorage key) s i) as [n|] eqn:Hn.
  - apply lookup_note_Some in Hn as [Hn Hid]. simpl in Hn.
    apply Hmem, elem_of_idb_records in Hn. simpl. rewrite <- Hid, Hn. simpl.
    by rewrite note_of_rest_of.
  - apply lookup_note_None. apply lookup_note_None in Hn.
    intros (m & Hm & Hid). apply Hn. exists m. split; [|done]. by apply Hmem.
Qed.

Lemma findIndex_find_None {A} (p : A → bool) l :
  findIndex p l = None → find p l = None.
Proof. rewrite findIndex_None, find_None_iff. done. Qed.

(** What [updateNote] answers when the requests succeed: the merge of the
    note found, or [null]. *)
Lemma updateNote_answer ctx i updates h w :
  reads_ok ctx h = true → writes_ok ctx h = true →
  (updateNote ctx i updates h w).1
  = Ok (if falsy i then None
        else (λ n, spread_update n updates (now_at h (ticks w)))
               <$> lookup_note ctx (store w) (str_of i)).
Proof.
  intros Hr Hw. destruct (falsy i) eqn:Hf.
  { unfold updateNote. by rewrite Hf. }
  destruct ctx as [|key]; simpl in Hr, Hw.
  - apply andb_prop in Hr as [_ Hg]. apply andb_prop in Hw as [Hp _].
    rewrite updateNote_idb_eq, Hg by done. simpl.
    destruct (idb (store w) !! str_of i); simpl; [|done]. by rewrite Hp.
  - rewrite updateNote_ls_eq, Hr by done. simpl.
    destruct (findIndex _ _) as [idx|] eqn:Hidx.
    + destruct (findIndex_Some _ _ _ Hidx) as (n & Hlk & _ & Hfind).
      by rewrite Hlk, Hfind.
    + by rewrite (findIndex_find_None _ _ Hidx).
Qed.

Lemma elem_of_insert_unique (l : list Note) idx n x m :
  NoDup (id <$> l) → l !! idx = Some n →
  m ∈ <[idx := x]> l ↔ m = x ∨ (m ∈ l ∧ id m ≠ id n).
Proof.
  intros Hnd Hlk. split.
  - intros (j & Hj)%list_elem_of_lookup.
    apply list_lookup_insert_Some in Hj as [(-> & -> & _)|[Hne Hj]]; [by left|].
    right. split; [apply list_elem_of_lookup; eauto|].
    intros Hid. apply Hne.
    apply (NoDup_lookup (id <$> l) idx j (id n)); [done| |].
    + by rewrite list_lookup_fmap, Hlk.
    + rewrite list_lookup_fmap, Hj. simpl. by rewrite Hid.
  - intros [->|[(j & Hj)%list_elem_of_lookup Hid]].
    + apply list_elem_of_insert. by apply lookup_lt_Some in Hlk.
    + apply list_elem_of_lookup. exists j. rewrite list_lookup_insert_ne; [done|].
      intros ->. rewrite Hlk in Hj. by injection Hj as ->.
Qed.

Lemma all_ok_reads_writes ctx h :
  all_ok h → reads_ok ctx h = true ∧ writes_ok ctx h = true.
Proof.
  intros (_ & Hg & Hget & Hp & Hd & Hlg & Hls).
  destruct ctx; simpl; by rewrite ?Hg, ?Hget, ?Hp, ?Hd, ?Hlg, ?Hls.
Qed.

Lemma agree_after_create key h w :
  agree key (store w) →
  ¬ present IndexedDB (store w) (next_id h w) →
  agree key
    (mkStore (<[next_id h w := rest_of (new_note h w)]> (idb (store w)))
       (<[key := RawArray (ls_collection (ls (store w) !! key) ++ [new_note h w])]>
          (ls (store w)))).
Proof.
  intros [Hnd Hmem] Hfresh. unfold agree. simpl. rewrite lookup_insert_eq. simpl.
  assert (∀ m, m ∈ ls_collection (ls (store w) !! key) → id m ≠ next_id h w) as Hne.
  { intros m Hm Hid. apply Hfresh. exists m. split; [by apply Hmem|done]. }
  split.
  - rewrite fmap_app. apply NoDup_app. split; [done|]. split; [|apply NoDup_singleton].
    intros k (m & -> & Hm)%list_elem_of_fmap Hin. simpl in Hin.
    apply list_elem_of_singleton in Hin. by apply (Hne m).
  - intros m. rewrite elem_of_app, list_elem_of_singleton, elem_of_idb_records,
      lookup_insert_Some, <- elem_of_idb_records, <- Hmem. split.
    + intros [Hm| ->]; [right|by left]. split; [|done]. intros Hid. by apply (Hne m).
    + intros [[Hid Hrest]|[_ Hm]]; [right|by left].
      by apply note_eq_by_rest.
Qed.

Lemma agree_after_update key i n next w :
  agree key (store w) →
  lookup_note (LocalStorage key) (store w) i = Some n →
  id next = i →
  ∀ idx, ls_collection (ls (store w) !! key) !! idx = Some n →
  agree key
    (mkStore (<[i := rest_of next]> (idb (store w)))
       (<[key := RawArray (<[idx := next]> (ls_collection (ls (store w) !! key)))]>
          (ls (store w)))).
Proof.
  intros [Hnd Hmem] Hn Hnext idx Hlk. unfold agree. simpl.
  rewrite lookup_insert_eq. simpl.
  apply lookup_note_Some in Hn as [_ Hid]. split.
  - rewrite list_fmap_insert, list_insert_id; [done|].
    by rewrite list_lookup_fmap, Hlk, Hnext, <- Hid.
  - intros m. rewrite (elem_of_insert_unique _ idx n) by done.
    rewrite elem_of_idb_records, lookup_insert_Some, <- elem_of_idb_records, <- Hmem, Hid.
    split.
    + intros [->|[Hm Hne]]; [left; by split|right; by split].
    + intros [[Hi Hrest]|[Hne Hm]]; [left|right; by split].
      apply note_eq_by_rest; [by rewrite Hnext|done].
Qed.

Lemma agree_after_delete key i w :
  agree key (store w) →
  agree key
    (mkStore (delete i (idb (store w)))
       (<[key := RawArray (List.filter (λ n, negb (id_is i n))
                             (ls_collection (ls (store w) !! key)))]> (ls (store w)))).
Proof.
  intros [Hnd Hmem]. unfold agree. simpl. rewrite lookup_insert_eq. simpl. split.
  - by apply NoDup_fmap_filter.
  - intros m. rewrite elem_of_filter_list, negb_id_is, elem_of_idb_records,
      lookup_delete_Some, <- elem_of_idb_records, <- Hmem.
    split; intros [? ?]; split; congruence.
Qed.

Lemma agree_eta key s : agree key (mkStore (idb s) (ls s)) ↔ agree key s.
Proof. done. Qed.

(** X13. The two variants stay in step. Start from a world in which the
    array stored under the key and the object store hold the same notes (no
    id twice), and run one operation on each variant, on a host where every
    request succeeds: a [createNote] that draws an id no stored note has, an
    [updateNote] whose updates carry no [id], or a [deleteNote]. Then the
    array the localStorage run leaves and the object store the IndexedDB run
    leaves again hold the same notes. *)
Theorem variants_stay_in_step key o h w :
  all_ok h →
  agree key (store w) →
  comparable key o h w →
  agree key (run_both key o h w).
Proof.
  intros Hok Hag Hcmp.
  destruct (all_ok_reads_writes IndexedDB h Hok) as [HrI HwI].
  destruct (all_ok_reads_writes (LocalStorage key) h Hok) as [HrL HwL].
  unfold run_both. destruct o as [|i updates|i]; simpl in *.
  - rewrite !createNote_ok_eq by done. simpl. by apply agree_after_create.
  - destruct (falsy i) eqn:Hf.
    { unfold updateNote. rewrite Hf. simpl. by apply agree_eta. }
    destruct i as [| |i]; try done. simpl in Hf. apply bool_decide_eq_false in Hf.
    destruct (lookup_note (LocalStorage key) (store w) i) as [n|] eqn:Hn.
    + pose proof Hn as HnI. rewrite <- (agree_lookup key) in HnI by done.
      destruct (updateNote_ok_eq IndexedDB i updates h w n Hf HrI HwI HnI)
        as (wI & -> & HidbI & _).
      destruct (updateNote_ok_eq (LocalStorage key) i updates h w n Hf HrL HwL Hn)
        as (wL & -> & idx & _ & Hlk & HlsL & _).
      simpl. rewrite HidbI, HlsL.
      assert (id (spread_update n updates (now_at h (ticks w))) = i) as Hnext.
      { apply lookup_note_Some in Hn as [_ Hid].
        unfold spread_update. simpl. by rewrite Hcmp. }
      rewrite Hnext. by apply (agree_after_update key i n).
    + pose proof Hn as HnI. rewrite <- (agree_lookup key) in HnI by done.
      rewrite updateNote_idb_eq, updateNote_ls_eq by by apply falsy_JStr.
      simpl in HrI, HrL, HnI, Hn. apply andb_prop in HrI as [_ ->]. rewrite HrL.
      simpl str_of. apply fmap_None in HnI. rewrite HnI. simpl.
      destruct (findIndex _ _) as [idx|] eqn:Hidx; [|by apply agree_eta].
      destruct (findIndex_Some _ _ _ Hidx) as (m & _ & _ & Hfind). congruence.
  - destruct (falsy i) eqn:Hf.
    { unfold deleteNote. rewrite Hf. simpl. by apply agree_eta. }
    destruct i as [| |i]; try done. simpl in Hf. apply bool_decide_eq_false in Hf.
    rewrite !deleteNote_ok_eq by done. simpl. by apply agree_after_delete.
Qed.

Lemma agree_world_with (l : list Note) :
  NoDup (id <$> l) → agree notes_key (store (world_with l)).
Proof.
  intros Hnd. unfold agree, world_with. simpl. rewrite lookup_singleton_eq. simpl.
  split; [done|]. intros n. rewrite elem_of_idb_records.
  rewrite <- elem_of_list_to_map.
  - rewrite list_elem_of_fmap. split.
    + intros Hn. by exists n.
    + intros (m & Heq & Hm).
      by rewrite (note_eq_by_rest n m (f_equal fst Heq) (f_equal snd Heq)).
  - by rewrite <- list_fmap_compose.
Qed.

Lemma variants_stay_in_step_witness :
  agree notes_key
    (run_both notes_key (OpUpdate (JStr "n1") (title_only "Groceries")) ticking_host
       (world_with [sample_note; other_note])).
Proof.
  refine (variants_stay_in_step notes_key (OpUpdate (JStr "n1") (title_only "Groceries"))
            ticking_host (world_with [sample_note; other_note]) all_ok_ticking _ eq_refl).
  apply agree_world_with. simpl. apply NoDup_cons. split.
  - intros H%list_elem_of_singleton. discriminate H.
  - apply NoDup_singleton.
Defined.

Lemma agree_Permutation key s :
  agree key s → idb_records (idb s) ≡ₚ ls_collection (ls s !! key).
Proof.
  intros [Hnd Hmem]. apply NoDup_Permutation.
  - apply (NoDup_fmap_1 id), NoDup_idb_ids.
  - by apply (NoDup_fmap_1 id).
  - intros n. by rewrite Hmem.
Qed.

(** X14. The two variants answer alike. In a world in which the array
    stored under the key and the object store hold the same notes (no id
    twice), on a host where every request succeeds, each of [createNote],
    [updateNote], [deleteNote] and [getNote] returns under the IndexedDB
    context what it returns under the localStorage context, for every id and
    all updates; and the two [listNotes] results are permutations of each
    other, both newest first (they can differ only in the order of notes with
    the same [updatedAt]). *)
Theorem variants_answer_alike key i updates h w :
  all_ok h →
  agree key (store w) →
  (createNote IndexedDB h w).1 = (createNote (LocalStorage key) h w).1
  ∧ (updateNote IndexedDB i updates h w).1
    = (updateNote (LocalStorage key) i updates h w).1
  ∧ (deleteNote IndexedDB i h w).1 = (deleteNote (LocalStorage key) i h w).1
  ∧ (getNote IndexedDB i h w).1 = (getNote (LocalStorage key) i h w).1
  ∧ ∃ lI lL,
      (listNotes IndexedDB h w).1 = Ok lI
      ∧ (listNotes (LocalStorage key) h w).1 = Ok lL
      ∧ lI ≡ₚ lL ∧ newest_first lI ∧ newest_first lL.
Proof.
  intros Hok Hag.
  destruct (all_ok_reads_writes IndexedDB h Hok) as [HrI HwI].
  destruct (all_ok_reads_writes (LocalStorage key) h Hok) as [HrL HwL].
  split; [by rewrite !createNote_ok_eq|].
  split; [by rewrite !updateNote_answer, (agree_lookup key)|].
  split.
  { destruct (falsy i) eqn:Hf; [unfold deleteNote; by rewrite Hf|].
    destruct i as [| |i]; try done. simpl in Hf. apply bool_decide_eq_false in Hf.
    by rewrite !deleteNote_ok_eq. }
  split.
  { destruct (falsy i) eqn:Hf; [unfold getNote; by rewrite Hf|].
    destruct i as [| |i]; try done. simpl in Hf. apply bool_decide_eq_false in Hf.
    by rewrite !getNote_lookup, (agree_lookup key). }
  eexists _, _. rewrite !listNotes_eq by done. split; [reflexivity|].
  split; [reflexivity|]. split.
  - rewrite !Array_sort_perm. simpl. by apply agree_Permutation.
  - split; apply Array_sort_newest_first.
Qed.

Lemma variants_answer_alike_witness :
  (getNote IndexedDB (JStr "n2") ticking_host (world_with [sample_note; other_note])).1
  = (getNote ls_ctx (JStr "n2") ticking_host (world_with [sample_note; other_note])).1.
Proof.
  refine (proj1 (proj2 (proj2 (proj2
            (variants_answer_alike notes_key (JStr "n2") (title_only "x") ticking_host
               (world_with [sample_note; other_note]) all_ok_ticking _))))).
  apply agree_world_with. simpl. apply NoDup_cons. split.
  - intros H%list_elem_of_singleton. discriminate H.
  - apply NoDup_singleton.
Defined.

(** * Further properties of the query and sort utilities *)

Lemma deref_new (hp : Heap) l : deref (hp ++ [l]) (length hp) = l.
Proof. unfold deref. by rewrite lookup_app_r, Nat.sub_diag. Qed.

Lemma filterNotes_eq toLowerCase notes query hp :
  falsy query = false →
  filterNotes toLowerCase notes query hp
  = (length hp,
     (hp ++ [List.filter (matches toLowerCase (toLowerCase (str_of query)))
               (deref hp notes)])%list).
Proof. intros Hf. unfold filterNotes, alloc. by rewrite Hf. Qed.

Lemma contents_filterNotes toLowerCase notes query hp :
  contents (filterNotes toLowerCase notes query hp)
  = if falsy query then deref hp notes
    else List.filter (matches toLowerCase (toLowerCase (str_of query))) (deref hp notes).
Proof.
  unfold contents. destruct (falsy query) eqn:Hf.
  - unfold filterNotes. by rewrite Hf.
  - rewrite filterNotes_eq by done. simpl. apply deref_new.
Qed.

Lemma contents_sortNotesByUpdated notes hp :
  contents (sortNotesByUpdated notes hp) = Array_sort by_updated_desc (deref hp notes).
Proof. unfold contents. rewrite sortNotesByUpdated_eq. simpl. apply deref_new. Qed.

Lemma filter_filter_comm {A} (f g : A → bool) l :
  List.filter f (List.filter g l) = List.filter g (List.filter f l).
Proof.
  induction l as [|x l IH]; simpl; [done|].
  destruct (f x) eqn:Hf, (g x) eqn:Hg; simpl; rewrite ?Hf, ?Hg, IH; done.
Qed.

Lemma filter_filter_same {A} (f : A → bool) l :
  List.filter f (List.filter f l) = List.filter f l.
Proof.
  induction l as [|x l IH]; simpl; [done|].
  destruct (f x) eqn:Hf; simpl; rewrite ?Hf, IH; done.
Qed.

Lemma newest_first_filter f l : newest_first l → newest_first (List.filter f l).
Proof.
  unfold newest_first. induction 1 as [|x l Hl IH Hx]; simpl; [constructor|].
  destruct (f x); [|done]. constructor; [done|].
  rewrite Forall_forall in Hx |- *. intros m [Hm _]%elem_of_filter_list. by apply Hx.
Qed.

(** Filtering the sorted array and sorting the filtered array give the same
    array. *)
Lemma filter_Array_sort f l :
  List.filter f (Array_sort by_updated_desc l)
  = Array_sort by_updated_desc (List.filter f l).
Proof.
  apply Array_sort_unique.
  - apply newest_first_filter, Array_sort_newest_first.
  - intros t. unfold stamped. rewrite filter_filter_comm.
    fold (stamped t (Array_sort by_updated_desc l)). rewrite Array_sort_stamped.
    unfold stamped. apply filter_filter_comm.
Qed.

Lemma Array_sort_sorted l : newest_first l → Array_sort by_updated_desc l = l.
Proof. intros Hl. symmetry. by apply Array_sort_unique. Qed.

(** X15. Searching and ordering commute: for every array of notes and every
    query, sorting the result of [filterNotes] and filtering the result of
    [sortNotesByUpdated] produce arrays with the same elements in the same
    order. *)
Theorem filter_and_sort_commute toLowerCase notes query hp :
  contents (uncurry sortNotesByUpdated (filterNotes toLowerCase notes query hp))
  = contents (uncurry (λ sorted, filterNotes toLowerCase sorted query)
                (sortNotesByUpdated notes hp)).
Proof.
  destruct (filterNotes toLowerCase notes query hp) as [filtered hp1] eqn:Ef.
  destruct (sortNotesByUpdated notes hp) as [sorted hp2] eqn:Es. simpl.
  rewrite contents_sortNotesByUpdated, contents_filterNotes.
  change (deref hp1 filtered) with (contents (filtered, hp1)).
  change (deref hp2 sorted) with (contents (sorted, hp2)).
  rewrite <- Ef, <- Es, contents_filterNotes, contents_sortNotesByUpdated.
  destruct (falsy query); [done|]. symmetry. apply filter_Array_sort.
Qed.

(** X16. [sortNotesByUpdated] changes nothing in an array that is already
    ordered newest first (the copy it returns has the elements of the input
    in the same order), and sorting its own result again gives the same
    elements in the same order. *)
Theorem sortNotesByUpdated_settled notes hp :
  (newest_first (deref hp notes) →
   contents (sortNotesByUpdated notes hp) = deref hp notes)
  ∧ contents (uncurry sortNotesByUpdated (sortNotesByUpdated notes hp))
    = contents (sortNotesByUpdated notes hp).
Proof.
  split.
  - intros Hl. rewrite contents_sortNotesByUpdated. by apply Array_sort_sorted.
  - destruct (sortNotesByUpdated notes hp) as [sorted hp1] eqn:Es. simpl.
    rewrite contents_sortNotesByUpdated.
    change (deref hp1 sorted) with (contents (sorted, hp1)).
    rewrite <- Es, contents_sortNotesByUpdated.
    apply Array_sort_sorted, Array_sort_newest_first.
Qed.

Lemma sortNotesByUpdated_settled_witness :
  contents (sortNotesByUpdated 0%nat [[other_note; sample_note]])
  = deref [[other_note; sample_note]] 0%nat.
Proof.
  refine (proj1 (sortNotesByUpdated_settled 0%nat [[other_note; sample_note]]) _).
  repeat constructor. simpl. lia.
Defined.

Lemma caseless_length a b : caseless a b → String.length a = String.length b.
Proof. induction 1; simpl; congruence. Qed.

(** X17. The case of the letters of a query of the ASCII range does not
    matter, and searching a result again finds all of it: where [toLowerCase]
    does on text of the ASCII range what the language fixes, two queries of
    that range that differ at most in the case of their letters give
    [filterNotes] results with the same elements in the same order, whatever
    the notes hold; and filtering a result of [filterNotes] by the same query
    keeps every element. *)
Theorem filterNotes_query_case toLowerCase notes q1 q2 hp :
  lowers_ascii toLowerCase →
  ascii_text q1 = true → ascii_text q2 = true →
  caseless q1 q2 →
  contents (filterNotes toLowerCase notes (JStr q1) hp)
  = contents (filterNotes toLowerCase notes (JStr q2) hp)
  ∧ contents (uncurry (λ found, filterNotes toLowerCase found (JStr q1))
                (filterNotes toLowerCase notes (JStr q1) hp))
    = contents (filterNotes toLowerCase notes (JStr q1) hp).
Proof.
  intros Hlc H1 H2 Hq. split.
  - rewrite !contents_filterNotes. simpl.
    pose proof (caseless_length _ _ Hq) as Hlen.
    apply caseless_lower in Hq. rewrite (Hlc q1 H1), (Hlc q2 H2), Hq.
    destruct q1, q2; simpl in *; try done.
  - destruct (filterNotes toLowerCase notes (JStr q1) hp) as [found hp1] eqn:Ef. simpl.
    rewrite contents_filterNotes.
    change (deref hp1 found) with (contents (found, hp1)).
    rewrite <- Ef, contents_filterNotes.
    destruct (falsy (JStr q1)); [done|]. apply filter_filter_same.
Qed.

Lemma filterNotes_query_case_witness :
  contents (filterNotes ascii_lower 0%nat (JStr "Shop") [[sample_note; other_note]])
  = contents (filterNotes ascii_lower 0%nat (JStr "sHOP") [[sample_note; other_note]]).
Proof.
  refine (proj1 (filterNotes_query_case ascii_lower 0%nat "Shop" "sHOP"
                   [[sample_note; other_note]] lowers_ascii_ascii_lower eq_refl eq_refl _)).
  by apply caseless_lower.
Defined.

(** * Properties of the [App] component's use of the storage *)

(** ** The visible list *)

Lemma visibleNotes_eq toLowerCase notes query hp :
  visibleNotes toLowerCase notes query hp
  = if bool_decide (query = "")
    then (length hp, (hp ++ [Array_sort by_updated_desc (deref hp notes)])%list)
    else (S (length hp),
          (hp ++ [List.filter (matches toLowerCase (toLowerCase query)) (deref hp notes);
                  Array_sort by_updated_desc
                    (List.filter (matches toLowerCase (toLowerCase query))
                       (deref hp notes))])%list).
Proof.
  unfold visibleNotes. case_bool_decide as Hq.
  - unfold filterNotes. simpl. rewrite bool_decide_eq_true_2 by done.
    apply sortNotesByUpdated_eq.
  - rewrite filterNotes_eq by by apply falsy_JStr. simpl str_of.
    rewrite sortNotesByUpdated_eq, deref_new, length_app. simpl.
    rewrite Nat.add_1_r. by rewrite <- app_assoc.
Qed.

Lemma filter_all {A} (l : list A) : List.filter (λ _, true) l = l.
Proof. induction l as [|x l IH]; simpl; [done|]. by rewrite IH. Qed.

Lemma ci_substring_empty s : ci_substring "" s.
Proof. exists EmptyString, EmptyString, s. split; [done|constructor]. Qed.

(** X18. The list the component shows,
    [sortNotesByUpdated(filterNotes(notes, query))], is a new array, also
    for an empty query. It holds exactly the notes of [notes] that are kept:
    all of them for the empty query, otherwise those whose lowered title or
    lowered content contains the lowered query, [toLowerCase] being the
    host's, whatever it does; where the query, the title and the content are
    text of the ASCII range, for which the language fixes [toLowerCase], a
    note is kept exactly when its title or content contains the query up to
    the case of letters. The list is ordered newest first, notes of one
    [updatedAt] value in the order they have in [notes]; the array [notes]
    and every other array that existed are what they were. *)
Theorem visibleNotes_spec toLowerCase notes query hp l :
  hp !! notes = Some l →
  ∃ visible hp' out keep,
    visibleNotes toLowerCase notes query hp = (visible, hp')
    ∧ hp' !! visible = Some out
    ∧ (∀ n, keep n = true
            ↔ query = ""
              ∨ occurs (toLowerCase query) (toLowerCase (title n))
              ∨ occurs (toLowerCase query) (toLowerCase (content n)))
    ∧ (lowers_ascii toLowerCase → ascii_text query = true →
       ∀ n, ascii_text (title n) = true → ascii_text (content n) = true →
            keep n = true
            ↔ ci_substring query (title n) ∨ ci_substring query (content n))
    ∧ out ≡ₚ List.filter keep l
    ∧ newest_first out
    ∧ (∀ t, stamped t out = stamped t (List.filter keep l))
    ∧ visible ≠ notes
    ∧ hp' !! notes = Some l
    ∧ (∀ a, (a < length hp)%nat → hp' !! a = hp !! a).
Proof.
  intros Hl. pose proof (lookup_lt_Some _ _ _ Hl) as Hlt.
  rewrite visibleNotes_eq. unfold deref. rewrite Hl. simpl.
  case_bool_decide as Hq.
  - subst query. eexists _, _, _, (λ _, true). split; [reflexivity|].
    split. { rewrite lookup_app_r, Nat.sub_diag by done. reflexivity. }
    split. { intros n. split; [by left|done]. }
    split. { intros _ _ n _ _. split; [intros _; left; apply ci_substring_empty|done]. }
    rewrite filter_all.
    split; [apply Array_sort_perm|]. split; [apply Array_sort_newest_first|].
    split; [intros t; apply Array_sort_stamped|].
    split; [lia|]. split; [by rewrite lookup_app_l|].
    intros a Ha. by rewrite lookup_app_l.
  - eexists _, _, _, (matches toLowerCase (toLowerCase query)). split; [reflexivity|].
    split.
    { rewrite lookup_app_r by lia.
      replace (S (length hp) - length hp)%nat with 1%nat by lia. reflexivity. }
    split.
    { intros n. rewrite matches_occurs. split; [by right|]. by intros [?|?]. }
    split. { intros Hlc Hascii n Ht Hc. by apply matches_ascii. }
    split; [apply Array_sort_perm|]. split; [apply Array_sort_newest_first|].
    split; [intros t; apply Array_sort_stamped|].
    split; [lia|]. split; [by rewrite lookup_app_l|].
    intros a Ha. by rewrite lookup_app_l.
Qed.

Lemma visibleNotes_spec_witness :
  ∃ visible hp' out keep,
    visibleNotes ascii_lower 0%nat "shop" [[sample_note; other_note]] = (visible, hp')
    ∧ hp' !! visible = Some out
    ∧ out = [other_note; sample_note]
    ∧ (∀ n, ascii_text (title n) = true → ascii_text (content n) = true →
            keep n = true
            ↔ ci_substring "shop" (title n) ∨ ci_substring "shop" (content n))
    ∧ out ≡ₚ List.filter keep [sample_note; other_note]
    ∧ newest_first out
    ∧ (∀ t, stamped t out = stamped t (List.filter keep [sample_note; other_note]))
    ∧ visible ≠ 0%nat
    ∧ hp' !! 0%nat = Some [sample_note; other_note].
Proof.
  destruct (visibleNotes_spec ascii_lower 0%nat "shop" [[sample_note; other_note]]
              [sample_note; other_note] eq_refl)
    as (visible & hp' & out & keep & Hrun & Hout & _ & Hascii & Hperm & Hsorted
        & Hstable & Hnew & Hkept & _).
  exists visible, hp', out, keep.
  split; [exact Hrun|]. split; [exact Hout|].
  split.
  { vm_compute in Hrun. injection Hrun as <- <-.
    vm_compute in Hout. by injection Hout as <-. }
  split.
  { intros n Ht Hc.
    apply Hascii; [apply lowers_ascii_ascii_lower|reflexivity|exact Ht|exact Hc]. }
  split; [exact Hperm|]. split; [exact Hsorted|]. split; [exact Hstable|].
  split; [exact Hnew|exact Hkept].
Defined.

(** ** Refreshing the list and the selection *)

Lemma id_eq_true a n : id_eq a n = true ↔ a = JStr (id n).
Proof.
  destruct a as [| |s]; simpl; [done|done|].
  rewrite bool_decide_eq_true. split; [by intros ->|by intros [= ->]].
Qed.

Lemma existsb_id_eq a (items : list Note) :
  existsb (id_eq a) items = true ↔ ∃ n, n ∈ items ∧ a = JStr (id n).
Proof.
  rewrite existsb_exists. split.
  - intros (n & Hn%list_elem_of_In & Ha%id_eq_true). eauto.
  - intros (n & Hn%list_elem_of_In & Ha%id_eq_true). eauto.
Qed.

Lemma refreshNotes_ok_eq ctx keepActive u h w :
  ui_ctx u = Some ctx →
  reads_ok ctx h = true →
  refreshNotes keepActive u h w
  = (Ok (let items := Array_sort by_updated_desc (collection ctx (store w)) in
         mkUI (Some ctx) items
           (if keepActive then
              match items with
              | first :: _ =>
                  if existsb (id_eq (ui_activeId u)) items
                  then ui_activeId u else JStr (id first)
              | [] => ui_activeId u
              end
            else first_id_or_null items)
           (ui_query u)), w).
Proof.
  intros Hc Hr. unfold refreshNotes. rewrite Hc. unfold bind.
  rewrite listNotes_eq by done. simpl.
  destruct keepActive; simpl; [|done].
  destruct (Array_sort _ _) as [|first rest]; [done|].
  by destruct (existsb _ _).
Qed.

(** X19. [refreshNotes(true)], when the read request succeeds, sets [notes]
    to what [listNotes] returns and reconciles the selection with it: if a
    listed note has the active id the selection stays; if none has it and the
    list is not empty, the first (a most recently updated) note becomes
    active; so [activeNote] is absent afterwards exactly when the list is
    empty, in which case [activeId] is left as it was, pointing at no
    note. The storage context and the query are kept. *)
Theorem refreshNotes_keeps_selection ctx u h w :
  ui_ctx u = Some ctx →
  reads_ok ctx h = true →
  ∃ u',
    refreshNotes true u h w = (Ok u', w)
    ∧ (listNotes ctx h w).1 = Ok (ui_notes u')
    ∧ ui_ctx u' = ui_ctx u ∧ ui_query u' = ui_query u
    ∧ ((∃ n, n ∈ ui_notes u' ∧ ui_activeId u = JStr (id n)) →
       ui_activeId u' = ui_activeId u)
    ∧ ((¬ ∃ n, n ∈ ui_notes u' ∧ ui_activeId u = JStr (id n)) →
       ∀ first rest, ui_notes u' = first :: rest →
         ui_activeId u' = JStr (id first) ∧ activeNote u' = Some first)
    ∧ (ui_notes u' = [] → ui_activeId u' = ui_activeId u)
    ∧ (activeNote u' = None ↔ ui_notes u' = []).
Proof.
  intros Hc Hr. eexists. rewrite (refreshNotes_ok_eq ctx) by done.
  split; [reflexivity|]. rewrite listNotes_eq by done. simpl.
  split; [done|]. split; [done|]. split; [done|].
  unfold activeNote. simpl.
  destruct (Array_sort by_updated_desc (collection ctx (store w)))
    as [|first rest] eqn:Hitems.
  { split; [by intros (n & Hn%elem_of_nil & _)|].
    split; [done|]. split; [done|]. done. }
  destruct (existsb (id_eq (ui_activeId u)) (first :: rest)) eqn:Hex.
  - split; [done|]. split.
    { intros Hno. by apply existsb_id_eq in Hex. }
    split; [done|]. split; [|done].
    intros Hnone. rewrite find_None_iff in Hnone.
    apply existsb_exists in Hex as (n & Hn%list_elem_of_In & Hid).
    rewrite (Hnone n Hn) in Hid. done.
  - split.
    { intros Hyes%existsb_id_eq. congruence. }
    split.
    { intros _ first' rest' [= <- <-]. split; [done|].
      simpl. by rewrite bool_decide_eq_true_2. }
    split; [done|]. split; [|done].
    simpl. by rewrite bool_decide_eq_true_2.
Qed.

Lemma refreshNotes_keeps_selection_witness :
  ∃ u',
    refreshNotes true (mkUI (Some ls_ctx) [] (JStr "gone") "") ticking_host
      (world_with [sample_note; other_note])
    = (Ok u', world_with [sample_note; other_note])
    ∧ (listNotes ls_ctx ticking_host (world_with [sample_note; other_note])).1
      = Ok (ui_notes u')
    ∧ ui_ctx u' = Some ls_ctx ∧ ui_query u' = ""
    ∧ ((∃ n, n ∈ ui_notes u' ∧ JStr "gone" = JStr (id n)) →
       ui_activeId u' = JStr "gone")
    ∧ ((¬ ∃ n, n ∈ ui_notes u' ∧ JStr "gone" = JStr (id n)) →
       ∀ first rest, ui_notes u' = first :: rest →
         ui_activeId u' = JStr (id first) ∧ activeNote u' = Some first)
    ∧ (ui_notes u' = [] → ui_activeId u' = JStr "gone")
    ∧ (activeNote u' = None ↔ ui_notes u' = []).
Proof.
  exact (refreshNotes_keeps_selection ls_ctx (mkUI (Some ls_ctx) [] (JStr "gone") "")
           ticking_host (world_with [sample_note; other_note]) eq_refl eq_refl).
Defined.

(** X20. [refreshNotes(false)], when the read request succeeds, sets
    [notes] to what [listNotes] returns and selects its first note, which no
    listed note is more recent than; [activeId] becomes [null] when the list
    is empty, and also when the first note's id is the empty string. *)
Theorem refreshNotes_selects_newest ctx u h w :
  ui_ctx u = Some ctx →
  reads_ok ctx h = true →
  ∃ u',
    refreshNotes false u h w = (Ok u', w)
    ∧ (listNotes ctx h w).1 = Ok (ui_notes u')
    ∧ ui_ctx u' = ui_ctx u ∧ ui_query u' = ui_query u
    ∧ (ui_notes u' = [] → ui_activeId u' = JNull ∧ activeNote u' = None)
    ∧ (∀ first rest, ui_notes u' = first :: rest →
         (∀ n, n ∈ ui_notes u' → updatedAt n ≤ updatedAt first)
         ∧ (id first ≠ "" →
            ui_activeId u' = JStr (id first) ∧ activeNote u' = Some first)
         ∧ (id first = "" → ui_activeId u' = JNull ∧ activeNote u' = None)).
Proof.
  intros Hc Hr. eexists. rewrite (refreshNotes_ok_eq ctx) by done.
  split; [reflexivity|]. rewrite listNotes_eq by done. simpl.
  split; [done|]. split; [done|]. split; [done|].
  unfold activeNote. simpl.
  pose proof (Array_sort_newest_first (collection ctx (store w))) as Hsorted.
  destruct (Array_sort by_updated_desc (collection ctx (store w)))
    as [|first rest] eqn:Hitems.
  { split; [done|]. by intros first rest [=]. }
  split; [done|]. intros first' rest' [= <- <-].
  split; [intros n Hn; by apply (newest_first_head first rest)|].
  simpl. split.
  - intros Hid. rewrite (bool_decide_eq_false_2 (id first = "")) by done.
    split; [done|]. simpl. by rewrite bool_decide_eq_true_2.
  - intros Hid. rewrite (bool_decide_eq_true_2 (id first = "")) by done.
    split; [done|]. by apply find_None_iff.
Qed.

Lemma refreshNotes_selects_newest_witness :
  ∃ u',
    refreshNotes false (mkUI (Some ls_ctx) [] JNull "") ticking_host
      (world_with [sample_note; other_note])
    = (Ok u', world_with [sample_note; other_note])
    ∧ (listNotes ls_ctx ticking_host (world_with [sample_note; other_note])).1
      = Ok (ui_notes u')
    ∧ ui_ctx u' = Some ls_ctx ∧ ui_query u' = ""
    ∧ (ui_notes u' = [] → ui_activeId u' = JNull ∧ activeNote u' = None)
    ∧ (∀ first rest, ui_notes u' = first :: rest →
         (∀ n, n ∈ ui_notes u' → updatedAt n ≤ updatedAt first)
         ∧ (id first ≠ "" →
            ui_activeId u' = JStr (id first) ∧ activeNote u' = Some first)
         ∧ (id first = "" → ui_activeId u' = JNull ∧ activeNote u' = None)).
Proof.
  exact (refreshNotes_selects_newest ls_ctx (mkUI (Some ls_ctx) [] JNull "")
           ticking_host (world_with [sample_note; other_note]) eq_refl eq_refl).
Defined.

(** ** Creating and deleting from the component *)

Lemma find_only (l : list Note) n :
  n ∈ l → (∀ m, m ∈ l → id m = id n → m = n) →
  find (id_is (id n)) l = Some n.
Proof.
  induction l as [|x l IH]; simpl; [by intros ?%elem_of_nil|].
  intros Hn Honly. unfold id_is at 1. case_bool_decide as Hx.
  - f_equal. apply Honly; [apply list_elem_of_here|done].
  - apply IH.
    + apply elem_of_cons in Hn as [->|Hn]; [done|done].
    + intros m Hm. apply Honly. by apply list_elem_of_further.
Qed.

(** X21. [handleCreate], when the requests succeed, creates a note,
    refreshes the list from the storage and makes the new note the active
    one: the new note is in [notes], [activeId] is its id and [activeNote] is
    the new note itself. Under localStorage this supposes that no stored note
    had the id already. *)
Theorem handleCreate_selects_new ctx u h w :
  ui_ctx u = Some ctx →
  reads_ok ctx h = true → writes_ok ctx h = true →
  (ctx ≠ IndexedDB → ¬ present ctx (store w) (next_id h w)) →
  ∃ n u' w',
    createNote ctx h w = (Ok n, w')
    ∧ handleCreate u h w = (Ok u', w')
    ∧ (listNotes ctx h w').1 = Ok (ui_notes u')
    ∧ n ∈ ui_notes u'
    ∧ ui_activeId u' = JStr (id n)
    ∧ activeNote u' = Some n
    ∧ ui_ctx u' = ui_ctx u ∧ ui_query u' = ui_query u.
Proof.
  intros Hc Hr Hw Hfresh. exists (new_note h w). eexists _, _.
  unfold handleCreate. rewrite Hc. unfold bind.
  rewrite createNote_ok_eq by done. split; [reflexivity|].
  rewrite (refreshNotes_ok_eq ctx) by done. simpl. split; [reflexivity|].
  rewrite listNotes_eq by done. simpl. split; [reflexivity|].
  set (w' := match ctx with IndexedDB => _ | LocalStorage key => _ end).
  assert (new_note h w ∈ collection ctx (store w')) as Hin.
  { subst w'. destruct ctx as [|key]; simpl.
    - apply elem_of_idb_records. simpl. apply lookup_insert_eq.
    - rewrite lookup_insert_eq. simpl. apply elem_of_app. right. apply list_elem_of_here. }
  assert (∀ m, m ∈ collection ctx (store w') → id m = next_id h w → m = new_note h w)
    as Honly.
  { subst w'. destruct ctx as [|key]; simpl.
    - intros m [->|[Hne _]]%elem_of_idb_records_insert Hid; [done|done].
    - rewrite lookup_insert_eq. simpl.
      intros m [Hm|Hm%list_elem_of_singleton]%elem_of_app Hid; [|done].
      exfalso. apply Hfresh; [done|]. by exists m. }
  split; [by rewrite Array_sort_perm|]. split; [done|]. split; [|done].
  unfold activeNote. simpl.
  apply (find_only _ (new_note h w)).
  - by rewrite Array_sort_perm.
  - intros m Hm. apply Honly. by rewrite Array_sort_perm in Hm.
Qed.

Lemma handleCreate_selects_new_witness :
  ∃ n u' w',
    createNote IndexedDB ticking_host (world_with [sample_note]) = (Ok n, w')
    ∧ handleCreate (mkUI (Some IndexedDB) [sample_note] (JStr "n1") "") ticking_host
        (world_with [sample_note]) = (Ok u', w')
    ∧ (listNotes IndexedDB ticking_host w').1 = Ok (ui_notes u')
    ∧ n ∈ ui_notes u'
    ∧ ui_activeId u' = JStr (id n)
    ∧ activeNote u' = Some n
    ∧ ui_ctx u' = Some IndexedDB ∧ ui_query u' = "".
Proof.
  refine (handleCreate_selects_new IndexedDB
            (mkUI (Some IndexedDB) [sample_note] (JStr "n1") "") ticking_host
            (world_with [sample_note]) eq_refl eq_refl eq_refl _).
  intros H. by destruct H.
Defined.

(** X22. [handleDelete] with a note selected: when the user declines the
    confirmation nothing is called and nothing changes; when the user
    confirms and the requests succeed, the active note is deleted from the
    storage, [notes] becomes the list of the remaining notes (every stored
    note but those with the active id), and the selection moves to the first
    of them, or to [null] when none is left; the deleted id is not selected
    any more. *)
Theorem handleDelete_removes_active ctx i u h w :
  ui_ctx u = Some ctx →
  ui_activeId u = JStr i → i ≠ "" →
  reads_ok ctx h = true → writes_ok ctx h = true →
  handleDelete false u h w = (Ok u, w)
  ∧ ∃ u' w',
      handleDelete true u h w = (Ok u', w')
      ∧ deleteNote ctx (JStr i) h w = (Ok tt, w')
      ∧ (listNotes ctx h w').1 = Ok (ui_notes u')
      ∧ (∀ n, n ∈ ui_notes u' ↔ n ∈ collection ctx (store w) ∧ id n ≠ i)
      ∧ ui_activeId u' ≠ JStr i
      ∧ (ui_notes u' = [] → ui_activeId u' = JNull)
      ∧ (∀ first rest, ui_notes u' = first :: rest → id first ≠ "" →
           ui_activeId u' = JStr (id first) ∧ activeNote u' = Some first).
Proof.
  intros Hc Ha Hi Hr Hw. unfold handleDelete. rewrite Hc, Ha, falsy_JStr by done.
  split; [done|]. change (negb true) with false. cbv beta iota.
  eexists _, _. unfold bind.
  rewrite deleteNote_ok_eq by done. cbv beta iota.
  rewrite (refreshNotes_ok_eq ctx) by done. split; [reflexivity|].
  split; [reflexivity|]. rewrite listNotes_eq by done. simpl.
  split; [reflexivity|].
  set (w' := match ctx with IndexedDB => _ | LocalStorage key => _ end).
  assert (∀ n, n ∈ collection ctx (store w') ↔ n ∈ collection ctx (store w) ∧ id n ≠ i)
    as Hmem.
  { intros n. subst w'. destruct ctx as [|key]; simpl.
    - rewrite !elem_of_idb_records, lookup_delete_Some.
      split; intros [? ?]; split; congruence.
    - rewrite lookup_insert_eq. simpl. by rewrite elem_of_filter_list, negb_id_is. }
  split. { intros n. by rewrite Array_sort_perm. }
  unfold activeNote. simpl.
  destruct (Array_sort by_updated_desc (collection ctx (store w')))
    as [|first rest] eqn:Hitems.
  { split; [done|]. split; [done|]. by intros first rest [=]. }
  assert (id first ≠ i) as Hfirst.
  { assert (first ∈ Array_sort by_updated_desc (collection ctx (store w'))) as Hin
      by (rewrite Hitems; apply list_elem_of_here).
    rewrite Array_sort_perm in Hin. by apply Hmem in Hin as [_ ?]. }
  simpl. split.
  { case_bool_decide; [done|]. by intros [= ?]. }
  split; [done|]. intros first' rest' [= <- <-] Hne.
  rewrite (bool_decide_eq_false_2 (id first = "")) by done.
  split; [done|]. simpl. by rewrite bool_decide_eq_true_2.
Qed.

Lemma handleDelete_removes_active_witness :
  handleDelete false (mkUI (Some ls_ctx) [sample_note; other_note] (JStr "n1") "")
    ticking_host (world_with [sample_note; other_note])
  = (Ok (mkUI (Some ls_ctx) [sample_note; other_note] (JStr "n1") ""),
     world_with [sample_note; other_note]).
Proof.
  refine (proj1 (handleDelete_removes_active ls_ctx "n1"
                   (mkUI (Some ls_ctx) [sample_note; other_note] (JStr "n1") "")
                   ticking_host (world_with [sample_note; other_note])
                   eq_refl eq_refl _ eq_refl eq_refl)).
  discriminate.
Defined.

(** ** Failing reads *)

(** X23. When the read request fails, the variants differ in what the
    caller sees: under IndexedDB [listNotes] and [getNote] (of a present id
    or not) are rejected; under localStorage the exception is caught inside
    [readLS], so [listNotes] returns the empty array and [getNote] returns
    [null], as if nothing were stored. Nothing is written either way. *)
Theorem read_failure_outcome ctx i h w :
  read_fails ctx h = true →
  falsy i = false →
  match ctx with
  | IndexedDB =>
      listNotes ctx h w = (Rejected IDBRequestError, w)
      ∧ getNote ctx i h w = (Rejected IDBRequestError, w)
  | LocalStorage _ =>
      listNotes ctx h w = (Ok [], w)
      ∧ getNote ctx i h w = (Ok None, w)
  end.
Proof.
  intros Hf Hi. destruct ctx as [|key]; simpl in Hf.
  - apply andb_prop in Hf as [Hga%negb_true_iff Hg%negb_true_iff]. split.
    + simpl. run_m. by rewrite Hga.
    + rewrite getNote_eq by done. by rewrite Hg.
  - apply negb_true_iff in Hf. split.
    + simpl. unfold bind. by rewrite readLS_eq, Hf.
    + rewrite getNote_eq by done. by rewrite Hf.
Qed.

Lemma read_failure_outcome_witness :
  listNotes ls_ctx unreadable_host (world_with [sample_note])
  = (Ok [], world_with [sample_note])
  ∧ getNote ls_ctx (JStr "n1") unreadable_host (world_with [sample_note])
    = (Ok None, world_with [sample_note]).
Proof.
  exact (read_failure_outcome ls_ctx (JStr "n1") unreadable_host
           (world_with [sample_note]) eq_refl eq_refl).
Defined.
